(** * Key-step segmentation of assistant output

    A shallow embedding of [parseKeySteps] from
    [frontend/src/components/KeyStepRenderer.tsx], together with the
    [String.prototype] operations and the two regular expressions it uses.

    JavaScript strings are sequences of UTF-16 code units; indices and
    lengths are numbers, with [-1] for a failed search and negative arguments
    of [slice] counted from the end.  Code units are modelled as [N],
    strings as lists of code units, indices as [Z]. *)

From Stdlib Require Import List ZArith NArith Ascii String Bool Lia.
Import ListNotations.
Open Scope Z_scope.

(* ================================================================== *)
(** ** The string operations of the host language *)
(* ================================================================== *)

Module JS.

Definition code_unit := N.
Definition jsstring := list code_unit.

(** A string literal of the source (ASCII only) as a sequence of code units. *)
Definition js (s : string) : jsstring :=
  map N_of_ascii (list_ascii_of_string s).

(** [s.length] *)
Definition length (s : jsstring) : Z := Z.of_nat (List.length s).

(** [s.startsWith(needle)], used to define [indexOf]. *)
Fixpoint startsWith (needle s : jsstring) : bool :=
  match needle, s with
  | [], _ => true
  | _ :: _, [] => false
  | a :: needle', b :: s' => N.eqb a b && startsWith needle' s'
  end.

(** Leftmost position of [needle] in [s], where the head of [s] has
    position [k]; [-1] when there is none. *)
Fixpoint search (needle s : jsstring) (k : Z) : Z :=
  if startsWith needle s then k
  else match s with
       | [] => -1
       | _ :: s' => search needle s' (k + 1)
       end.

(** The offset of the leftmost occurrence as a natural number, for the
    proofs: [search] is [find] shifted by the start position
    ([search_find] below). *)
Fixpoint find (needle s : jsstring) : option nat :=
  if startsWith needle s then Some O
  else match s with
       | [] => None
       | _ :: s' => option_map S (find needle s')
       end.

(** [s.indexOf(needle, position)]: the position is clamped to [0..length]. *)
Definition indexOf (s needle : jsstring) (position : Z) : Z :=
  let start := Z.max 0 (Z.min position (length s)) in
  search needle (skipn (Z.to_nat start) s) start.

(** A relative index of [slice]: negative ones count from the end. *)
Definition relative (len i : Z) : Z :=
  if i <? 0 then Z.max (len + i) 0 else Z.min i len.

(** [s.slice(start, end)] *)
Definition slice (s : jsstring) (start end_ : Z) : jsstring :=
  let from := relative (length s) start in
  let to := relative (length s) end_ in
  firstn (Z.to_nat (Z.max (to - from) 0)) (skipn (Z.to_nat from) s).

(** [s.slice(start)] *)
Definition sliceFrom (s : jsstring) (start : Z) : jsstring :=
  slice s start (length s).

(** White space and line terminators: the class [\s] of regular
    expressions, which is also what [trim] strips. *)
Definition isWhiteSpace (c : code_unit) : bool :=
  ((9 <=? c) && (c <=? 13) || (c =? 32) || (c =? 160) || (c =? 5760)
   || (8192 <=? c) && (c <=? 8202) || (c =? 8232) || (c =? 8233)
   || (c =? 8239) || (c =? 8287) || (c =? 12288) || (c =? 65279))%N.

Fixpoint trimStart (s : jsstring) : jsstring :=
  match s with
  | [] => []
  | c :: s' => if isWhiteSpace c then trimStart s' else s
  end.

Definition trimEnd (s : jsstring) : jsstring := rev (trimStart (rev s)).

(** [s.trim()] *)
Definition trim (s : jsstring) : jsstring := trimEnd (trimStart s).

(** Truthiness of a string: [if (s)] holds for the non-empty ones. *)
Definition truthy (s : jsstring) : bool :=
  match s with [] => false | _ :: _ => true end.

End JS.

(* ================================================================== *)
(** ** The two regular expressions of the header *)
(* ================================================================== *)

Module Regex.
Import JS.

(** Leftmost match: the pattern is tried at every position, from the
    left, the end of the input included. *)
Fixpoint leftmost {A : Type} (anchored : jsstring -> option A)
         (s : jsstring) : option A :=
  match anchored s with
  | Some r => Some r
  | None => match s with
            | [] => None
            | _ :: s' => leftmost anchored s'
            end
  end.

(** [(\s|$)] at the head of [s]: a white-space unit or the end of input
    (no [m] flag). *)
Definition spaceOrEnd (s : jsstring) : bool :=
  match s with
  | [] => true
  | c :: _ => isWhiteSpace c
  end.

(** [([^\s]+)(\s|$)] anchored at the head of [s], the group captured.
    The quantifier is greedy and backtracks: the longest run of
    non-space units that is followed by [(\s|$)]. *)
Fixpoint idToken (s : jsstring) : option jsstring :=
  match s with
  | [] => None
  | c :: s' =>
      if isWhiteSpace c then None
      else match idToken s' with
           | Some t => Some (c :: t)
           | None => if spaceOrEnd s' then Some [c] else None
           end
  end.

(** [/id=([^\s]+)(\s|$)/] anchored at the head of [s]; group 1. *)
Definition idAnchored (s : jsstring) : option jsstring :=
  if startsWith (js "id=") s then idToken (skipn 3 s) else None.

Definition quote : code_unit := 34%N.

(** The tail of the second pattern, anchored at the head of [s]: a
    group of any number of units other than the double quote (greedy),
    then a double quote; the group captured. *)
Fixpoint quoted (s : jsstring) : option jsstring :=
  match s with
  | [] => None
  | c :: s' =>
      if N.eqb c quote then Some []
      else match quoted s' with
           | Some t => Some (c :: t)
           | None => None
           end
  end.

(** The literal prefix of the second pattern: [theorem=] and the
    opening quote. *)
Definition theoremOpen : jsstring := js "theorem=" ++ [quote].

(** The second pattern anchored at the head of [s]: [theorem=], a
    double quote, the group, a double quote; group 1. *)
Definition theoremAnchored (s : jsstring) : option jsstring :=
  if startsWith theoremOpen s then quoted (skipn 9 s) else None.

(** [header.match(/id=([^\s]+)(\s|$)/)?.[1]] *)
Definition idMatch (header : jsstring) : option jsstring :=
  leftmost idAnchored header.

(** [header.match(...)?.[1]] for the second pattern (theorem) *)
Definition theoremMatch (header : jsstring) : option jsstring :=
  leftmost theoremAnchored header.

End Regex.

(* ================================================================== *)
(** ** The parser *)
(* ================================================================== *)

Module KeyStepRenderer.
Import JS Regex.

Inductive SegmentType := normal | key.

(** [interface KeyStepSegment]; the optional fields are absent ([None])
    in a normal segment and wherever the header has no such attribute. *)
Record KeyStepSegment := mkSegment {
  type : SegmentType;
  text : jsstring;
  id : option jsstring;
  theorem : option jsstring
}.

Definition Normal (t : jsstring) : KeyStepSegment :=
  mkSegment normal t None None.

Definition KeyStep (t : jsstring) (i th : option jsstring) : KeyStepSegment :=
  mkSegment key t i th.

Definition backslash : code_unit := 92%N.

Definition startTag : jsstring := js "[[KEY_STEP".
Definition endTag : jsstring := js "[[/KEY_STEP]]".

(** [segments.push(x)] *)
Definition push (segments : list KeyStepSegment) (x : KeyStepSegment) :=
  segments ++ [x].

(** How one pass through the body of [while (true)] ends: at a [break],
    or at the bottom with a new value of [remaining]. *)
Inductive Outcome :=
| Break (segments : list KeyStepSegment)
| Continue (segments : list KeyStepSegment) (remaining : jsstring).

(** An outcome after segments pushed earlier. *)
Definition prepend (segments : list KeyStepSegment) (o : Outcome) : Outcome :=
  match o with
  | Break n => Break (segments ++ n)
  | Continue n r => Continue (segments ++ n) r
  end.

(** The key segment built from [tagAndContent]. *)
Definition keySegment (tagAndContent : jsstring) : KeyStepSegment :=
  let headerEnd := indexOf tagAndContent (js "]]") 0 in
  let header := trim (slice tagAndContent (length startTag) headerEnd) in
  let body := slice tagAndContent (headerEnd + 2) (- length endTag) in
  mkSegment key body (idMatch header) (theoremMatch header).

(** One pass through the loop body. *)
Definition iteration (segments : list KeyStepSegment) (remaining : jsstring)
  : Outcome :=
  let startIdx := indexOf remaining startTag 0 in
  if startIdx =? -1 then
    Break (if truthy remaining then push segments (Normal remaining)
           else segments)
  else
    let segments :=
      if startIdx >? 0 then push segments (Normal (slice remaining 0 startIdx))
      else segments in
    let endIdx := indexOf remaining endTag startIdx in
    if endIdx =? -1 then
      Break (push segments (Normal (sliceFrom remaining startIdx)))
    else
      let tagAndContent :=
        slice remaining startIdx (endIdx + length endTag) in
      Continue (push segments (keySegment tagAndContent))
               (sliceFrom remaining (endIdx + length endTag)).

(** The loop, run for at most [fuel] passes; [None] when the loop has not
    reached a [break] by then. *)
Fixpoint loop (fuel : nat) (segments : list KeyStepSegment)
         (remaining : jsstring) : option (list KeyStepSegment) :=
  match fuel with
  | O => None
  | S fuel' =>
      match iteration segments remaining with
      | Break segments' => Some segments'
      | Continue segments' remaining' => loop fuel' segments' remaining'
      end
  end.

(** [parseKeySteps(text)]: the loop started on the whole text with no
    segment yet.  One pass more than the text has code units is enough
    ([loop_total] below), so [None] is never returned. *)
Definition parseKeySteps (text : jsstring) : option (list KeyStepSegment) :=
  loop (S (List.length text)) [] text.

(** The texts of the segments, concatenated in order. *)
Definition concatTexts (segments : list KeyStepSegment) : jsstring :=
  List.concat (map text segments).

(** A normal segment is never empty. *)
Definition normalNonEmpty (seg : KeyStepSegment) : Prop :=
  type seg = normal -> text seg <> [].

(** An [id] that is present is a non-empty token without white space; a
    [theorem] that is present has no double quote in it. *)
Definition attributesWellFormed (seg : KeyStepSegment) : Prop :=
  (forall t, id seg = Some t ->
             t <> [] /\ Forall (fun c => isWhiteSpace c = false) t) /\
  (forall t, theorem seg = Some t -> ~ In quote t).

(** Texts in which every start marker met by the scan either has no
    terminator after it, or has a header closed by a pair of its own
    before the first terminator that follows the marker. *)
Inductive HeadersClosed : jsstring -> Prop :=
| Closed_plain text :
    indexOf text startTag 0 = -1 ->
    HeadersClosed text
| Closed_unterminated pre m :
    indexOf (pre ++ startTag) startTag 0 = length pre ->
    indexOf (startTag ++ m) endTag 0 = -1 ->
    HeadersClosed (pre ++ startTag ++ m)
| Closed_keyStep pre hdr body rest :
    indexOf (pre ++ startTag) startTag 0 = length pre ->
    indexOf (hdr ++ js "]]") (js "]]") 0 = length hdr ->
    indexOf ((startTag ++ hdr ++ js "]]" ++ body) ++ endTag) endTag 0 =
      length (startTag ++ hdr ++ js "]]" ++ body) ->
    HeadersClosed rest ->
    HeadersClosed
      (pre ++ startTag ++ hdr ++ js "]]" ++ body ++ endTag ++ rest).

End KeyStepRenderer.

(* ================================================================== *)
(** ** The scan as the specification words it *)
(* ================================================================== *)

(** Section 4.1 of the specification locates the closing pair of the
    header first and searches the terminator after it; the source
    searches the terminator from the start marker and finds the header
    end inside the text up to it.  The definitions of this module follow
    the words of the specification, for comparison with the source. *)
Module Spec.
Import JS Regex KeyStepRenderer.

(** One step of the scan of section 4.1. *)
Definition iteration (segments : list KeyStepSegment) (remaining : jsstring)
  : Outcome :=
  let startIdx := indexOf remaining startTag 0 in
  if startIdx =? -1 then
    Break (if truthy remaining then push segments (Normal remaining)
           else segments)
  else
    let segments :=
      if startIdx >? 0 then push segments (Normal (slice remaining 0 startIdx))
      else segments in
    let headerEnd :=
      indexOf remaining (js "]]") (startIdx + length startTag) in
    let endIdx :=
      if headerEnd =? -1 then -1
      else indexOf remaining endTag (headerEnd + 2) in
    if endIdx =? -1 then
      Break (push segments (Normal (sliceFrom remaining startIdx)))
    else
      let header :=
        trim (slice remaining (startIdx + length startTag) headerEnd) in
      let body := slice remaining (headerEnd + 2) endIdx in
      Continue
        (push segments (KeyStep body (idMatch header) (theoremMatch header)))
        (sliceFrom remaining (endIdx + length endTag)).

Fixpoint loop (fuel : nat) (segments : list KeyStepSegment)
         (remaining : jsstring) : option (list KeyStepSegment) :=
  match fuel with
  | O => None
  | S fuel' =>
      match iteration segments remaining with
      | Break segments' => Some segments'
      | Continue segments' remaining' => loop fuel' segments' remaining'
      end
  end.

Definition parse (text : jsstring) : option (list KeyStepSegment) :=
  loop (S (List.length text)) [] text.

(** The input with every well-formed wrapper (header and terminator)
    removed, and a start marker that has no closed header or no
    terminator after it left as it is, with all that follows. *)
Fixpoint stripWrappers (fuel : nat) (text : jsstring) : jsstring :=
  match fuel with
  | O => text
  | S fuel' =>
      let startIdx := indexOf text startTag 0 in
      if startIdx =? -1 then text
      else
        let headerEnd :=
          indexOf text (js "]]") (startIdx + length startTag) in
        if headerEnd =? -1 then text
        else
          let endIdx := indexOf text endTag (headerEnd + 2) in
          if endIdx =? -1 then text
          else
            slice text 0 startIdx ++ slice text (headerEnd + 2) endIdx
              ++ stripWrappers fuel' (sliceFrom text (endIdx + length endTag))
  end.

Definition strip (text : jsstring) : jsstring :=
  stripWrappers (S (List.length text)) text.

End Spec.

(* ================================================================== *)
(** ** The two components *)
(* ================================================================== *)

(** What the components return: [ReactMarkdown] elements, always with
    the plugins [remarkMath] and [rehypeKatex], and [div] elements, each
    of which has one child in the source. *)
Module React.
Import JS.

Inductive Element :=
| ReactMarkdown (key : option Z) (children : jsstring)
| Div (key : option Z) (className : jsstring) (title : option jsstring)
      (child : Element).

End React.

(** The component [KeyStepRenderer] of [KeyStepRenderer.tsx]. *)
Module Component.
Import JS Regex KeyStepRenderer React.

(** The four code units of the label of a key step. *)
Definition label : jsstring := [20851; 38190; 27493; 39588]%N.

(** Truthiness of an optional string field: [undefined] and the empty
    string are falsy. *)
Definition present (field : option jsstring) : bool :=
  match field with
  | Some s => truthy s
  | None => false
  end.

(** A field inside a template literal. *)
Definition interpolate (field : option jsstring) : jsstring :=
  match field with
  | Some s => s
  | None => js "undefined"
  end.

(** [const title = seg.theorem ? ... : seg.id ? ... : ...] *)
Definition title (seg : KeyStepSegment) : jsstring :=
  if present (theorem seg) then
    label ++ (if present (id seg) then js " #" ++ interpolate (id seg)
              else js "")
          ++ js ": " ++ interpolate (theorem seg)
  else if present (id seg) then label ++ js " #" ++ interpolate (id seg)
  else label.

(** The callback of [segments.map]. *)
Definition renderSegment (seg : KeyStepSegment) (idx : Z) : Element :=
  match type seg with
  | normal => ReactMarkdown (Some idx) (text seg)
  | key =>
      Div (Some idx) (js "key-step") (Some (title seg))
          (ReactMarkdown None (text seg))
  end.

(** [segments.map((seg, idx) => ...)], from the index [idx] on. *)
Fixpoint mapFrom (idx : Z) (segments : list KeyStepSegment) : list Element :=
  match segments with
  | [] => []
  | seg :: rest => renderSegment seg idx :: mapFrom (idx + 1) rest
  end.

(** The fragment the component returns for [text]. *)
Definition KeyStepRenderer (text : jsstring) : option (list Element) :=
  option_map (mapFrom 0) (parseKeySteps text).

(** The [key] of an element, and the Markdown source it shows. *)
Definition keyOf (e : Element) : option Z :=
  match e with
  | ReactMarkdown k _ => k
  | Div k _ _ _ => k
  end.

Fixpoint sourceOf (e : Element) : jsstring :=
  match e with
  | ReactMarkdown _ s => s
  | Div _ _ _ child => sourceOf child
  end.

(** The positions [idx], [idx + 1], ... of [n] elements. *)
Fixpoint positions (idx : Z) (n : nat) : list Z :=
  match n with
  | O => []
  | S n' => idx :: positions (idx + 1) n'
  end.

End Component.

(** The component [LatexPreview] of [LatexPreview.tsx]. *)
Module LatexPreview.
Import JS React.

(** The text shown when there is nothing to preview. *)
Definition placeholder : jsstring :=
  [22312; 36825; 37324; 23454; 26102; 39044; 35272; 32; 76; 97; 84; 101;
   88; 32; 34920; 36798; 24335; 65288; 25903; 25345; 32; 36; 97; 94; 50;
   32; 43; 32; 98; 94; 50; 32; 61; 32; 99; 94; 50; 36; 32; 31561; 65289;
   12290]%N.

(** [const content = value.trim() || placeholder] *)
Definition content (value : jsstring) : jsstring :=
  let trimmed := trim value in
  if truthy trimmed then trimmed else placeholder.

Definition LatexPreview (value : jsstring) : Element :=
  Div None (js "latex-preview") None (ReactMarkdown None (content value)).

End LatexPreview.

(** Predicates used to state where the segments lie in the input. *)
Module Layout.
Import JS KeyStepRenderer.

(** [InOrder ts s]: the strings [ts] occur in [s] one after the other,
    without overlap, in this order. *)
Inductive InOrder : list jsstring -> jsstring -> Prop :=
| InOrder_nil s : InOrder [] s
| InOrder_cons gap t ts s :
    InOrder ts s -> InOrder (t :: ts) (gap ++ t ++ s).

Definition isKey (seg : KeyStepSegment) : bool :=
  match type seg with
  | key => true
  | normal => false
  end.

(** The number of key segments. *)
Definition keyCount (segments : list KeyStepSegment) : nat :=
  List.length (filter isKey segments).

End Layout.

(* ================================================================== *)
(** ** Facts about the string operations *)
(* ================================================================== *)

Module JSFacts.
Import JS.

Lemma find_eq needle s :
  find needle s =
  if startsWith needle s then Some O
  else match s with
       | [] => None
       | _ :: s' => option_map S (find needle s')
       end.
Proof. destruct s; reflexivity. Qed.

Lemma search_find needle s k :
  search needle s k =
  match find needle s with
  | Some i => k + Z.of_nat i
  | None => -1
  end.
Proof.
  revert k; induction s as [|c s IH]; intros k; simpl.
  - destruct (startsWith needle []); simpl; lia.
  - destruct (startsWith needle (c :: s)); simpl; [lia|].
    rewrite IH. destruct (find needle s); simpl; lia.
Qed.

Lemma startsWith_iff needle s :
  startsWith needle s = true <-> exists rest, s = needle ++ rest.
Proof.
  revert s; induction needle as [|a n IH]; intros s; simpl.
  - split; [intros _; now exists s | reflexivity].
  - destruct s as [|b s].
    + split; [discriminate | intros [r Hr]; discriminate].
    + rewrite andb_true_iff, N.eqb_eq, IH. split.
      * intros [-> [r ->]]. now exists r.
      * intros [r Hr]. injection Hr as -> ->. split; [reflexivity | now exists r].
Qed.

Lemma startsWith_app needle rest : startsWith needle (needle ++ rest) = true.
Proof. apply startsWith_iff. now exists rest. Qed.

Lemma startsWith_length needle s :
  startsWith needle s = true -> (List.length needle <= List.length s)%nat.
Proof.
  intros H. apply startsWith_iff in H as [r ->].
  rewrite length_app. lia.
Qed.

Lemma startsWith_app_r needle s b :
  (List.length needle <= List.length s)%nat ->
  startsWith needle (s ++ b) = startsWith needle s.
Proof.
  revert s; induction needle as [|a n IH]; intros s Hlen; simpl.
  - reflexivity.
  - destruct s as [|c s]; simpl in *; [lia|].
    rewrite IH by lia. reflexivity.
Qed.

Lemma find_bound needle s i :
  find needle s = Some i ->
  (i + List.length needle <= List.length s)%nat.
Proof.
  revert i; induction s as [|c s IH]; intros i; simpl.
  - destruct (startsWith needle []) eqn:E; [|discriminate].
    intros [= <-]. apply startsWith_length in E. simpl in *. lia.
  - destruct (startsWith needle (c :: s)) eqn:E.
    + intros [= <-]. apply startsWith_length in E. simpl in *. lia.
    + destruct (find needle s) as [j|]; simpl; [|discriminate].
      intros [= <-]. specialize (IH j eq_refl). lia.
Qed.

Lemma find_occurs needle s i :
  find needle s = Some i ->
  s = firstn i s ++ needle ++ skipn (i + List.length needle) s.
Proof.
  revert i; induction s as [|c s IH]; intros i; simpl.
  - destruct (startsWith needle []) eqn:E; [|discriminate].
    intros [= <-]. apply startsWith_iff in E as [r E].
    destruct needle; [|discriminate]. reflexivity.
  - destruct (startsWith needle (c :: s)) eqn:E.
    + intros [= <-]. apply startsWith_iff in E as [r E].
      simpl. rewrite E at 2. rewrite skipn_app, skipn_all, Nat.sub_diag.
      simpl. exact E.
    + destruct (find needle s) as [j|]; simpl; [|discriminate].
      intros [= <-]. simpl. f_equal. now apply IH.
Qed.

(** The first occurrence in [a ++ needle] stays the first one when more
    text follows. *)
Lemma find_app_first needle a b :
  find needle (a ++ needle) = Some (List.length a) ->
  find needle (a ++ needle ++ b) = Some (List.length a).
Proof.
  induction a as [|c a IH]; simpl.
  - intros _. now rewrite find_eq, startsWith_app.
  - destruct (startsWith needle (c :: a ++ needle)) eqn:E; [discriminate|].
    intros H.
    assert (E' : startsWith needle (c :: a ++ needle ++ b) = false).
    { replace (c :: a ++ needle ++ b) with ((c :: a ++ needle) ++ b)
        by (simpl; now rewrite <- app_assoc).
      rewrite startsWith_app_r; [exact E|].
      simpl; rewrite length_app; lia. }
    rewrite E'.
    destruct (find needle (a ++ needle)) as [j|]; simpl in *; [|discriminate].
    injection H as ->. now rewrite IH.
Qed.

(** A first occurrence that lies beyond [a] is the first one of what
    follows [a]. *)
Lemma find_app_skip needle a b j :
  find needle (a ++ b) = Some (List.length a + j)%nat ->
  find needle b = Some j.
Proof.
  induction a as [|c a IH]; simpl.
  - trivial.
  - destruct (startsWith needle (c :: a ++ b)); [discriminate|].
    destruct (find needle (a ++ b)) as [i|]; simpl; [|discriminate].
    intros [= ->]. now apply IH.
Qed.

Lemma find_None_app needle a :
  find needle (a ++ needle) <> None.
Proof.
  induction a as [|c a IH]; simpl.
  - rewrite find_eq. rewrite <- (app_nil_r needle) at 2.
    now rewrite startsWith_app.
  - destruct (startsWith needle (c :: a ++ needle)); [discriminate|].
    destruct (find needle (a ++ needle)); [discriminate | contradiction].
Qed.

Lemma length_js_nat (s : jsstring) : Z.to_nat (length s) = List.length s.
Proof. unfold length. lia. Qed.

Lemma indexOf_0 s needle :
  indexOf s needle 0 =
  match find needle s with Some i => Z.of_nat i | None => -1 end.
Proof.
  unfold indexOf, length.
  replace (Z.max 0 (Z.min 0 (Z.of_nat (List.length s)))) with 0 by lia.
  simpl. rewrite search_find. destruct (find needle s); lia.
Qed.

(** Searching [a ++ b] from the end of [a] is searching [b]. *)
Lemma indexOf_app s b needle :
  indexOf (s ++ b) needle (length s) =
  match find needle b with
  | Some i => length s + Z.of_nat i
  | None => -1
  end.
Proof.
  unfold indexOf, length. rewrite length_app.
  replace (Z.max 0 (Z.min (Z.of_nat (List.length s))
                          (Z.of_nat (List.length s + List.length b))))
    with (Z.of_nat (List.length s)) by lia.
  rewrite Nat2Z.id, skipn_app, skipn_all, Nat.sub_diag. simpl.
  apply search_find.
Qed.

Lemma indexOf_first_app a needle b :
  indexOf (a ++ needle) needle 0 = length a ->
  indexOf (a ++ needle ++ b) needle 0 = length a.
Proof.
  rewrite !indexOf_0. unfold length.
  destruct (find needle (a ++ needle)) as [i|] eqn:E; [|lia].
  intros H. assert (i = List.length a) as -> by lia.
  now rewrite (find_app_first _ _ _ E).
Qed.

Lemma indexOf_app_first s a needle b :
  indexOf (a ++ needle) needle 0 = length a ->
  indexOf (s ++ a ++ needle ++ b) needle (length s) = length s + length a.
Proof.
  intros H. apply (indexOf_first_app _ _ b) in H.
  rewrite indexOf_0 in H. rewrite indexOf_app.
  destruct (find needle (a ++ needle ++ b)); unfold length in *; lia.
Qed.

Lemma length_app a b : length (a ++ b) = length a + length b.
Proof. unfold length. rewrite List.length_app. lia. Qed.

Lemma length_nonneg s : 0 <= length s.
Proof. unfold length. lia. Qed.

Lemma slice_nat s (i j : nat) :
  (i <= j <= List.length s)%nat ->
  slice s (Z.of_nat i) (Z.of_nat j) = firstn (j - i) (skipn i s).
Proof.
  intros H. unfold slice, relative, length.
  destruct (Z.ltb_spec (Z.of_nat i) 0); [lia|].
  destruct (Z.ltb_spec (Z.of_nat j) 0); [lia|].
  f_equal; [|f_equal]; lia.
Qed.

Lemma slice_app_mid a b c :
  slice (a ++ b ++ c) (length a) (length a + length b) = b.
Proof.
  unfold length at 1 2 3. rewrite <- Nat2Z.inj_add, slice_nat.
  - rewrite skipn_app, skipn_all, Nat.sub_diag. simpl.
    replace (List.length a + List.length b - List.length a)%nat
      with (List.length b) by lia.
    now rewrite firstn_app, firstn_all, Nat.sub_diag, firstn_O, app_nil_r.
  - rewrite !List.length_app. lia.
Qed.

Lemma slice_app_l a b : slice (a ++ b) 0 (length a) = a.
Proof.
  pose proof (slice_app_mid [] a b) as H.
  simpl in H. exact H.
Qed.

Lemma sliceFrom_app a b : sliceFrom (a ++ b) (length a) = b.
Proof.
  unfold sliceFrom.
  pose proof (slice_app_mid a b []) as H.
  rewrite app_nil_r in H. now rewrite length_app.
Qed.

(** A negative end counts from the end of the string. *)
Lemma slice_app_neg a b c :
  slice (a ++ b ++ c) (length a) (- length c) =
  if length c =? 0 then [] else b.
Proof.
  destruct (Z.eqb_spec (length c) 0) as [E|E].
  - unfold slice, relative. rewrite E. simpl.
    destruct (Z.ltb_spec (length a) 0).
    + pose proof (length_nonneg a). lia.
    + rewrite !length_app, E.
      pose proof (length_nonneg a). pose proof (length_nonneg b).
      replace (Z.max (Z.min 0 (length a + (length b + 0))
                      - Z.min (length a) (length a + (length b + 0))) 0)
        with 0 by lia.
      reflexivity.
  - rewrite <- (slice_app_mid a b c) at 2.
    unfold slice. f_equal. f_equal. f_equal. f_equal.
    unfold relative. rewrite !length_app.
    pose proof (length_nonneg a). pose proof (length_nonneg b).
    pose proof (length_nonneg c).
    destruct (Z.ltb_spec (- length c) 0);
      destruct (Z.ltb_spec (length a + length b) 0); lia.
Qed.

Lemma truthy_length s : truthy s = (length s >? 0).
Proof. destruct s; reflexivity. Qed.

Lemma indexOf_range s needle position :
  indexOf s needle position = -1 \/
  (0 <= indexOf s needle position /\
   indexOf s needle position + length needle <= length s).
Proof.
  unfold indexOf. rewrite search_find.
  set (start := Z.max 0 (Z.min position (length s))).
  destruct (find needle (skipn (Z.to_nat start) s)) as [i|] eqn:E;
    [right | now left].
  apply find_bound in E. rewrite length_skipn in E.
  unfold length in *. lia.
Qed.

Lemma indexOf_lower s needle position :
  indexOf s needle position = -1 \/
  Z.max 0 (Z.min position (length s)) <= indexOf s needle position.
Proof.
  unfold indexOf. rewrite search_find.
  destruct (find needle _); [right; lia | now left].
Qed.

Lemma find_None_skipn needle s k :
  find needle s = None -> find needle (skipn k s) = None.
Proof.
  revert s; induction k as [|k IH]; intros s H; [exact H|].
  destruct s as [|c s]; [exact H|].
  simpl in *. apply IH.
  destruct (startsWith needle (c :: s)); [discriminate|].
  destruct (find needle s); [discriminate | reflexivity].
Qed.

(** No occurrence from the end of [pre] on, none from any later
    position. *)
Lemma indexOf_none_later pre s needle position :
  find needle s = None ->
  length pre <= position ->
  indexOf (pre ++ s) needle position = -1.
Proof.
  intros Hnone Hpos. unfold indexOf. rewrite search_find.
  set (start := Z.max 0 (Z.min position (length (pre ++ s)))).
  assert (Hs : (List.length pre <= Z.to_nat start)%nat).
  { unfold start. rewrite length_app. unfold length in *. lia. }
  rewrite skipn_app, (skipn_all2 pre Hs), app_nil_l.
  now rewrite find_None_skipn.
Qed.

Lemma slice_0_0 s : slice s 0 0 = [].
Proof.
  unfold slice, relative. change (0 <? 0) with false. cbv iota.
  replace (Z.max (Z.min 0 (length s) - Z.min 0 (length s)) 0) with 0 by lia.
  reflexivity.
Qed.

Lemma sliceFrom_length s p :
  0 <= p -> length (sliceFrom s p) = length s - Z.min p (length s).
Proof.
  intros Hp. unfold sliceFrom, slice, relative.
  pose proof (length_nonneg s).
  destruct (Z.ltb_spec p 0); [lia|].
  destruct (Z.ltb_spec (length s) 0); [lia|].
  unfold length in *. rewrite length_firstn, length_skipn. lia.
Qed.

Lemma slice_0_length s i :
  0 <= i <= length s -> length (slice s 0 i) = i.
Proof.
  intros Hi. unfold slice, relative.
  destruct (Z.ltb_spec i 0); [lia|].
  change (0 <? 0) with false. cbv iota.
  unfold length in *. rewrite length_firstn, length_skipn. lia.
Qed.

End JSFacts.

(* ================================================================== *)
(** ** Facts about the two patterns *)
(* ================================================================== *)

Module RegexFacts.
Import JS Regex JSFacts.

Lemma leftmost_eq {A : Type} (f : jsstring -> option A) s :
  leftmost f s =
  match f s with
  | Some r => Some r
  | None => match s with
            | [] => None
            | _ :: s' => leftmost f s'
            end
  end.
Proof. destruct s; reflexivity. Qed.

(** A match is the anchored match at some position. *)
Lemma leftmost_Some {A : Type} (f : jsstring -> option A) s r :
  leftmost f s = Some r -> exists a b, s = a ++ b /\ f b = Some r.
Proof.
  induction s as [|c s IH]; simpl.
  - destruct (f []) eqn:E; [|discriminate].
    intros [= <-]. now exists [], [].
  - destruct (f (c :: s)) eqn:E.
    + intros [= <-]. now exists [], (c :: s).
    + intros H. destruct (IH H) as (a & b & -> & Hb).
      now exists (c :: a), b.
Qed.

Lemma idToken_token s t :
  idToken s = Some t ->
  t <> [] /\ Forall (fun c => isWhiteSpace c = false) t.
Proof.
  revert t; induction s as [|c s IH]; intros t; simpl; [discriminate|].
  destruct (isWhiteSpace c) eqn:Ec; [discriminate|].
  destruct (idToken s) as [u|].
  - intros [= <-]. split; [discriminate|].
    constructor; [exact Ec | now apply IH].
  - destruct (spaceOrEnd s); [|discriminate].
    intros [= <-]. split; [discriminate|]. now repeat constructor.
Qed.

Lemma idMatch_token header t :
  idMatch header = Some t ->
  t <> [] /\ Forall (fun c => isWhiteSpace c = false) t.
Proof.
  intros H. apply leftmost_Some in H as (a & b & _ & Hb).
  unfold idAnchored in Hb.
  destruct (startsWith (js "id=") b); [|discriminate].
  now apply idToken_token in Hb.
Qed.

Lemma quoted_no_quote s t : quoted s = Some t -> ~ In quote t.
Proof.
  revert t; induction s as [|c s IH]; intros t; simpl; [discriminate|].
  destruct (N.eqb_spec c quote) as [|Hc].
  - intros [= <-]. intros [].
  - destruct (quoted s) as [u|]; [|discriminate].
    intros [= <-] [H|H]; [now apply Hc | now apply (IH u)].
Qed.

Lemma quoted_value v b : ~ In quote v -> quoted (v ++ quote :: b) = Some v.
Proof.
  induction v as [|c v IH]; simpl; intros Hv.
  - reflexivity.
  - destruct (N.eqb_spec c quote) as [->|Hc].
    + exfalso. apply Hv. now left.
    + rewrite IH; [reflexivity|]. intros H. apply Hv. now right.
Qed.

Lemma theoremMatch_no_quote header t :
  theoremMatch header = Some t -> ~ In quote t.
Proof.
  intros H. apply leftmost_Some in H as (a & b & _ & Hb).
  unfold theoremAnchored in Hb.
  destruct (startsWith theoremOpen b); [|discriminate].
  now apply quoted_no_quote in Hb.
Qed.

Lemma theoremMatch_value a v b :
  indexOf (a ++ theoremOpen) theoremOpen 0 = length a ->
  ~ In quote v ->
  theoremMatch (a ++ theoremOpen ++ v ++ quote :: b) = Some v.
Proof.
  intros Hfirst Hv. unfold theoremMatch.
  rewrite indexOf_0 in Hfirst.
  induction a as [|c a IH].
  - rewrite app_nil_l, leftmost_eq. unfold theoremAnchored.
    rewrite startsWith_app.
    change 9%nat with (List.length theoremOpen).
    rewrite skipn_app, skipn_all, Nat.sub_diag, skipn_O, app_nil_l.
    now rewrite quoted_value.
  - rewrite <- app_comm_cons in *. rewrite find_eq in Hfirst.
    destruct (startsWith theoremOpen (c :: a ++ theoremOpen)) eqn:E.
    { unfold length in Hfirst. cbn in Hfirst. discriminate. }
    rewrite leftmost_eq. unfold theoremAnchored at 1.
    assert (E' : startsWith theoremOpen
                   (c :: a ++ theoremOpen ++ v ++ quote :: b) = false).
    { replace (c :: a ++ theoremOpen ++ v ++ quote :: b)
        with ((c :: a ++ theoremOpen) ++ v ++ quote :: b)
        by (rewrite <- app_comm_cons, <- app_assoc; reflexivity).
      rewrite startsWith_app_r; [exact E|].
      cbn [List.length]; rewrite List.length_app; lia. }
    rewrite E'. apply IH.
    destruct (find theoremOpen (a ++ theoremOpen)) as [i|];
      cbn [option_map] in Hfirst; unfold length in *;
      cbn [List.length] in Hfirst; lia.
Qed.

End RegexFacts.

(* ================================================================== *)
(** ** Facts about the loop *)
(* ================================================================== *)

Module LoopFacts.
Import JS Regex KeyStepRenderer JSFacts.

(** What a pass pushes does not depend on what was pushed before. *)
Lemma iteration_prepend segments remaining :
  iteration segments remaining = prepend segments (iteration [] remaining).
Proof.
  unfold iteration, push.
  destruct (indexOf remaining startTag 0 =? -1).
  - destruct (truthy remaining); simpl; now rewrite ?app_nil_r.
  - destruct (indexOf remaining startTag 0 >? 0);
      destruct (indexOf remaining endTag _ =? -1); simpl;
      now rewrite <- ?app_assoc.
Qed.

Lemma loop_prepend fuel segments remaining :
  loop fuel segments remaining =
  option_map (app segments) (loop fuel [] remaining).
Proof.
  revert segments remaining; induction fuel as [|fuel IH]; intros; simpl.
  - reflexivity.
  - rewrite iteration_prepend.
    destruct (iteration [] remaining) as [n|n r]; simpl.
    + reflexivity.
    + rewrite IH, (IH n). destruct (loop fuel [] r); simpl; [|reflexivity].
      now rewrite app_assoc.
Qed.

(** A pass that does not break drops the terminator it found, and all
    that comes before, from [remaining]. *)
Lemma iteration_shortens segments remaining segments' remaining' :
  iteration segments remaining = Continue segments' remaining' ->
  (List.length remaining' < List.length remaining)%nat.
Proof.
  unfold iteration.
  destruct (indexOf remaining startTag 0 =? -1); [discriminate|].
  set (startIdx := indexOf remaining startTag 0).
  destruct (Z.eqb_spec (indexOf remaining endTag startIdx) (-1)) as [|Hne];
    [discriminate|].
  intros [= _ <-].
  destruct (indexOf_range remaining endTag startIdx) as [|[H0 H1]];
    [contradiction|].
  pose proof (sliceFrom_length remaining
                (indexOf remaining endTag startIdx + length endTag)) as HL.
  change (length endTag) with 13 in *.
  unfold length in *. lia.
Qed.

Lemma loop_total fuel segments remaining :
  (List.length remaining < fuel)%nat ->
  exists out, loop fuel segments remaining = Some out.
Proof.
  revert segments remaining; induction fuel as [|fuel IH]; intros sg r Hlt.
  - lia.
  - simpl. destruct (iteration sg r) as [n|n r'] eqn:E.
    + now exists n.
    + apply iteration_shortens in E. apply IH. lia.
Qed.

Lemma loop_more_fuel fuel fuel' segments remaining out :
  loop fuel segments remaining = Some out ->
  (fuel <= fuel')%nat ->
  loop fuel' segments remaining = Some out.
Proof.
  revert fuel' segments remaining;
    induction fuel as [|fuel IH]; intros fuel' sg r; simpl.
  - discriminate.
  - intros H Hle. destruct fuel' as [|fuel']; [lia|]. simpl.
    destruct (iteration sg r) as [n|n r']; [exact H|].
    apply (IH fuel'); [exact H | lia].
Qed.

(** With enough fuel the loop computes what [parseKeySteps] returns on the
    remaining text, after the segments pushed so far. *)
Lemma loop_parse fuel segments remaining :
  (List.length remaining < fuel)%nat ->
  loop fuel segments remaining =
  option_map (app segments) (parseKeySteps remaining).
Proof.
  intros Hlt. unfold parseKeySteps.
  rewrite loop_prepend. f_equal.
  destruct (loop_total (S (List.length remaining)) [] remaining) as [out E];
    [lia|].
  rewrite E. apply (loop_more_fuel _ _ _ _ _ E). lia.
Qed.

(** A property of the segments pushed by every single pass holds of all
    segments returned. *)
Lemma loop_Forall (P : KeyStepSegment -> Prop) :
  (forall remaining,
      match iteration [] remaining with
      | Break n | Continue n _ => Forall P n
      end) ->
  forall fuel segments remaining out,
    Forall P segments ->
    loop fuel segments remaining = Some out ->
    Forall P out.
Proof.
  intros Hpass fuel; induction fuel as [|fuel IH]; intros sg r out Hsg; simpl.
  - discriminate.
  - rewrite iteration_prepend. specialize (Hpass r).
    destruct (iteration [] r) as [n|n r']; simpl.
    + intros [= <-]. apply Forall_app; now split.
    + apply IH. apply Forall_app; now split.
Qed.

(** The header ends at the first closing pair; the start tag has none. *)
Lemma find_close_startTag s :
  find (js "]]") (startTag ++ s) = option_map (Nat.add 10) (find (js "]]") s).
Proof.
  unfold startTag, js. simpl.
  destruct (find _ s); reflexivity.
Qed.

Lemma keySegment_closed hdr body :
  indexOf (hdr ++ js "]]") (js "]]") 0 = length hdr ->
  keySegment ((startTag ++ hdr ++ js "]]" ++ body) ++ endTag) =
  KeyStep body (idMatch (trim hdr)) (theoremMatch (trim hdr)).
Proof.
  intros Hclose. unfold keySegment.
  assert (HE : indexOf ((startTag ++ hdr ++ js "]]" ++ body) ++ endTag)
                 (js "]]") 0 = length startTag + length hdr).
  { rewrite <- !app_assoc.
    apply (indexOf_first_app _ _ (body ++ endTag)) in Hclose.
    rewrite indexOf_0 in *. rewrite find_close_startTag.
    destruct (find (js "]]") (hdr ++ js "]]" ++ body ++ endTag));
      cbn [option_map].
    - change (length startTag) with 10. rewrite Nat2Z.inj_add. lia.
    - pose proof (length_nonneg hdr). lia. }
  rewrite HE. unfold KeyStep. f_equal.
  - replace ((startTag ++ hdr ++ js "]]" ++ body) ++ endTag)
      with ((startTag ++ hdr ++ js "]]") ++ body ++ endTag)
      by (now rewrite <- !app_assoc).
    replace (length startTag + length hdr + 2)
      with (length (startTag ++ hdr ++ js "]]"))
      by (rewrite !length_app; change (length (js "]]")) with 2; lia).
    now rewrite slice_app_neg.
  - rewrite <- !app_assoc. now rewrite slice_app_mid.
  - rewrite <- !app_assoc. now rewrite slice_app_mid.
Qed.

Lemma indexOf_start_found pre rest :
  indexOf (pre ++ startTag) startTag 0 = length pre ->
  indexOf (pre ++ startTag ++ rest) startTag 0 = length pre /\
  (length pre =? -1) = false /\
  (length pre >? 0) = truthy pre /\
  slice (pre ++ startTag ++ rest) 0 (length pre) = pre.
Proof.
  intros H. repeat split.
  - now apply indexOf_first_app.
  - pose proof (length_nonneg pre). lia.
  - symmetry. apply truthy_length.
  - apply slice_app_l.
Qed.

(** A pass over a closed header, a body and the first terminator that
    follows the start marker. *)
Lemma iteration_keyStep segments pre hdr body rest :
  indexOf (pre ++ startTag) startTag 0 = length pre ->
  indexOf (hdr ++ js "]]") (js "]]") 0 = length hdr ->
  indexOf ((startTag ++ hdr ++ js "]]" ++ body) ++ endTag) endTag 0 =
    length (startTag ++ hdr ++ js "]]" ++ body) ->
  iteration segments
            (pre ++ startTag ++ hdr ++ js "]]" ++ body ++ endTag ++ rest) =
  Continue
    (push (if truthy pre then push segments (Normal pre) else segments)
          (KeyStep body (idMatch (trim hdr)) (theoremMatch (trim hdr))))
    rest.
Proof.
  intros Hstart Hclose Hend.
  destruct (indexOf_start_found pre
              (hdr ++ js "]]" ++ body ++ endTag ++ rest) Hstart)
    as (E1 & E2 & E3 & E4).
  unfold iteration. rewrite E1, E2, E3, E4.
  set (A := startTag ++ hdr ++ js "]]" ++ body) in *.
  replace (pre ++ startTag ++ hdr ++ js "]]" ++ body ++ endTag ++ rest)
    with (pre ++ A ++ endTag ++ rest)
    by (unfold A; now rewrite <- !app_assoc).
  rewrite (indexOf_app_first pre A endTag rest Hend).
  assert ((length pre + length A =? -1) = false) as ->.
  { pose proof (length_nonneg pre). pose proof (length_nonneg A). lia. }
  replace (length pre + length A + length endTag)
    with (length pre + length (A ++ endTag)) by (rewrite length_app; lia).
  replace (pre ++ A ++ endTag ++ rest) with (pre ++ (A ++ endTag) ++ rest)
    by (now rewrite <- !app_assoc).
  rewrite slice_app_mid.
  replace (pre ++ (A ++ endTag) ++ rest) with ((pre ++ A ++ endTag) ++ rest)
    by (now rewrite <- !app_assoc).
  replace (length pre + length (A ++ endTag))
    with (length (pre ++ A ++ endTag)) by (now rewrite !length_app).
  rewrite sliceFrom_app. unfold A.
  now rewrite keySegment_closed.
Qed.

(** A pass over a start marker that no terminator follows. *)
Lemma iteration_unterminated segments pre m :
  indexOf (pre ++ startTag) startTag 0 = length pre ->
  indexOf (startTag ++ m) endTag 0 = -1 ->
  iteration segments (pre ++ startTag ++ m) =
  Break (push (if truthy pre then push segments (Normal pre) else segments)
              (Normal (startTag ++ m))).
Proof.
  intros Hstart Hend.
  destruct (indexOf_start_found pre m Hstart) as (E1 & E2 & E3 & E4).
  unfold iteration. rewrite E1, E2, E3, E4.
  rewrite indexOf_app. rewrite indexOf_0 in Hend.
  destruct (find endTag (startTag ++ m)) as [i|]; [lia|].
  simpl. now rewrite sliceFrom_app.
Qed.

Lemma positive_length_nonempty (s : jsstring) : 0 < length s -> s <> [].
Proof. intros H ->. unfold length in H. simpl in H. lia. Qed.

(** The normal segments pushed by a pass are not empty. *)
Lemma iteration_normalNonEmpty remaining :
  match iteration [] remaining with
  | Break n | Continue n _ => Forall normalNonEmpty n
  end.
Proof.
  unfold iteration, push.
  destruct (Z.eqb_spec (indexOf remaining startTag 0) (-1)) as [|Hs].
  - destruct remaining; simpl; repeat constructor. discriminate.
  - set (startIdx := indexOf remaining startTag 0) in *.
    destruct (indexOf_range remaining startTag 0) as [|[H0 H1]];
      [contradiction|].
    fold startIdx in H0, H1. change (length startTag) with 10 in H1.
    assert (Hpre : Forall normalNonEmpty
                     (if startIdx >? 0
                      then [] ++ [Normal (slice remaining 0 startIdx)]
                      else [])).
    { destruct (Z.gtb_spec startIdx 0); repeat constructor.
      intros _. apply positive_length_nonempty. cbn [text Normal].
      rewrite slice_0_length; lia. }
    destruct (indexOf remaining endTag startIdx =? -1).
    + apply Forall_app; split; [exact Hpre|]. repeat constructor.
      intros _. apply positive_length_nonempty. cbn [text Normal].
      rewrite sliceFrom_length; lia.
    + apply Forall_app; split; [exact Hpre|]. repeat constructor.
      unfold keySegment. discriminate.
Qed.

(** The attributes of the segments pushed by a pass are well formed. *)
Lemma iteration_attributes remaining :
  match iteration [] remaining with
  | Break n | Continue n _ => Forall attributesWellFormed n
  end.
Proof.
  assert (HN : forall t, Forall attributesWellFormed [Normal t]).
  { intros t. apply Forall_cons; [|apply Forall_nil].
    split; intros u; discriminate. }
  unfold iteration, push.
  destruct (indexOf remaining startTag 0 =? -1).
  - destruct (truthy remaining); [apply HN | apply Forall_nil].
  - set (startIdx := indexOf remaining startTag 0).
    assert (Hpre : Forall attributesWellFormed
                     (if startIdx >? 0
                      then [] ++ [Normal (slice remaining 0 startIdx)]
                      else [])).
    { destruct (startIdx >? 0); [apply HN | apply Forall_nil]. }
    destruct (indexOf remaining endTag startIdx =? -1);
      (apply Forall_app; split; [exact Hpre|]).
    + apply HN.
    + apply Forall_cons; [|apply Forall_nil]. split; intros t.
      * apply RegexFacts.idMatch_token.
      * apply RegexFacts.theoremMatch_no_quote.
Qed.

(** [parseKeySteps] returns, and a property of what every pass pushes
    holds of all segments it returns. *)
Lemma parse_Forall (P : KeyStepSegment -> Prop) :
  (forall remaining,
      match iteration [] remaining with
      | Break n | Continue n _ => Forall P n
      end) ->
  forall text,
  exists segments,
    parseKeySteps text = Some segments /\ Forall P segments.
Proof.
  intros Hpass text.
  destruct (loop_total (S (List.length text)) [] text) as [out E]; [lia|].
  exists out. split; [exact E|].
  apply (loop_Forall P Hpass _ _ _ _ (Forall_nil P) E).
Qed.

End LoopFacts.

(* ================================================================== *)
(** ** The source against the scan of the specification *)
(* ================================================================== *)

Module SpecFacts.
Import JS Regex KeyStepRenderer JSFacts LoopFacts.

Lemma spec_iteration_plain segments remaining :
  indexOf remaining startTag 0 = -1 ->
  Spec.iteration segments remaining = iteration segments remaining.
Proof.
  intros H. unfold Spec.iteration, iteration. now rewrite H.
Qed.

(** After a start marker that no terminator follows, no search of the
    terminator from a later position succeeds. *)
Lemma spec_endIdx_unterminated pre m :
  indexOf (startTag ++ m) endTag 0 = -1 ->
  let text := pre ++ startTag ++ m in
  let headerEnd := indexOf text (js "]]") (length pre + length startTag) in
  (if headerEnd =? -1 then -1 else indexOf text endTag (headerEnd + 2)) = -1.
Proof.
  intros Hend text headerEnd.
  destruct (Z.eqb_spec headerEnd (-1)) as [|Hne]; [reflexivity|].
  apply indexOf_none_later.
  - rewrite indexOf_0 in Hend.
    destruct (find endTag (startTag ++ m)); [lia | reflexivity].
  - destruct (indexOf_lower text (js "]]") (length pre + length startTag))
      as [H|H]; [contradiction|].
    fold headerEnd in H. unfold text in H. rewrite !length_app in H.
    pose proof (length_nonneg pre). pose proof (length_nonneg m).
    change (length startTag) with 10 in H. lia.
Qed.

Lemma spec_iteration_unterminated segments pre m :
  indexOf (pre ++ startTag) startTag 0 = length pre ->
  indexOf (startTag ++ m) endTag 0 = -1 ->
  Spec.iteration segments (pre ++ startTag ++ m) =
  Break (push (if truthy pre then push segments (Normal pre) else segments)
              (Normal (startTag ++ m))).
Proof.
  intros Hstart Hend.
  destruct (indexOf_start_found pre m Hstart) as (E1 & E2 & E3 & E4).
  unfold Spec.iteration. rewrite E1, E2, E3, E4.
  rewrite (spec_endIdx_unterminated pre m Hend).
  change (-1 =? -1) with true. cbv iota.
  now rewrite sliceFrom_app.
Qed.

(** The positions and the slices of the scan of the specification on a
    closed header, a body and the terminator. *)
Lemma spec_indices pre hdr body rest :
  indexOf (hdr ++ js "]]") (js "]]") 0 = length hdr ->
  indexOf ((startTag ++ hdr ++ js "]]" ++ body) ++ endTag) endTag 0 =
    length (startTag ++ hdr ++ js "]]" ++ body) ->
  let text := pre ++ startTag ++ hdr ++ js "]]" ++ body ++ endTag ++ rest in
  let headerStart := length pre + length startTag in
  let headerEnd := headerStart + length hdr in
  let endIdx := headerEnd + 2 + length body in
  indexOf text (js "]]") headerStart = headerEnd /\
  indexOf text endTag (headerEnd + 2) = endIdx /\
  slice text headerStart headerEnd = hdr /\
  slice text (headerEnd + 2) endIdx = body /\
  sliceFrom text (endIdx + length endTag) = rest.
Proof.
  intros Hclose Hend text headerStart headerEnd endIdx.
  assert (Hbody : indexOf (body ++ endTag) endTag 0 = length body).
  { rewrite indexOf_0 in *.
    replace ((startTag ++ hdr ++ js "]]" ++ body) ++ endTag)
      with ((startTag ++ hdr ++ js "]]") ++ body ++ endTag) in Hend
      by (now rewrite <- !app_assoc).
    destruct (find endTag ((startTag ++ hdr ++ js "]]") ++ body ++ endTag))
      as [i|] eqn:E.
    - assert (i = (List.length (startTag ++ hdr ++ js "]]")
                   + List.length body)%nat) as ->.
      { unfold length in Hend. rewrite !List.length_app in *. lia. }
      now rewrite (find_app_skip _ _ _ _ E).
    - pose proof (length_nonneg (startTag ++ hdr ++ js "]]" ++ body)). lia. }
  assert (T1 : text = (pre ++ startTag) ++ hdr ++ js "]]"
                        ++ (body ++ endTag ++ rest))
    by (unfold text; now rewrite <- !app_assoc).
  assert (T2 : text = (pre ++ startTag ++ hdr ++ js "]]") ++ body ++ endTag
                        ++ rest)
    by (unfold text; now rewrite <- !app_assoc).
  assert (T3 : text = (pre ++ startTag ++ hdr ++ js "]]" ++ body ++ endTag)
                        ++ rest)
    by (unfold text; now rewrite <- !app_assoc).
  assert (L1 : headerStart = length (pre ++ startTag))
    by (unfold headerStart; now rewrite length_app).
  assert (L2 : headerEnd + 2 = length (pre ++ startTag ++ hdr ++ js "]]")).
  { unfold headerEnd, headerStart. rewrite !length_app.
    change (length (js "]]")) with 2. lia. }
  assert (L3 : endIdx + length endTag =
               length (pre ++ startTag ++ hdr ++ js "]]" ++ body ++ endTag)).
  { unfold endIdx, headerEnd, headerStart. rewrite !length_app.
    change (length (js "]]")) with 2. lia. }
  repeat split.
  - rewrite T1, L1, indexOf_app_first by exact Hclose.
    unfold headerEnd. now rewrite L1.
  - rewrite T2, L2, indexOf_app_first by exact Hbody.
    unfold endIdx. now rewrite L2.
  - rewrite T1. unfold headerEnd. rewrite L1. apply slice_app_mid.
  - rewrite T2. unfold endIdx. rewrite L2. apply slice_app_mid.
  - rewrite T3, L3. apply sliceFrom_app.
Qed.

Lemma spec_iteration_keyStep segments pre hdr body rest :
  indexOf (pre ++ startTag) startTag 0 = length pre ->
  indexOf (hdr ++ js "]]") (js "]]") 0 = length hdr ->
  indexOf ((startTag ++ hdr ++ js "]]" ++ body) ++ endTag) endTag 0 =
    length (startTag ++ hdr ++ js "]]" ++ body) ->
  Spec.iteration segments
    (pre ++ startTag ++ hdr ++ js "]]" ++ body ++ endTag ++ rest) =
  Continue
    (push (if truthy pre then push segments (Normal pre) else segments)
          (KeyStep body (idMatch (trim hdr)) (theoremMatch (trim hdr))))
    rest.
Proof.
  intros Hstart Hclose Hend.
  destruct (indexOf_start_found pre
              (hdr ++ js "]]" ++ body ++ endTag ++ rest) Hstart)
    as (E1 & E2 & E3 & E4).
  destruct (spec_indices pre hdr body rest Hclose Hend)
    as (I1 & I2 & I3 & I4 & I5).
  pose proof (length_nonneg pre). pose proof (length_nonneg hdr).
  pose proof (length_nonneg body). pose proof (length_nonneg startTag).
  unfold Spec.iteration. rewrite E1, E2, E3, E4, I1.
  assert ((length pre + length startTag + length hdr =? -1) = false)
    as -> by lia.
  rewrite I2.
  assert ((length pre + length startTag + length hdr + 2 + length body
           =? -1) = false) as -> by lia.
  now rewrite I3, I4, I5.
Qed.

(** On texts with closed headers the loop of the source and the scan of
    the specification do the same. *)
Lemma closed_loops_agree text :
  HeadersClosed text ->
  forall fuel segments,
    loop fuel segments text = Spec.loop fuel segments text.
Proof.
  induction 1 as [text H | pre m H1 H2 | pre hdr body rest H1 H2 H3 _ IH];
    intros [|fuel] segments; try reflexivity; cbn [loop Spec.loop].
  - rewrite spec_iteration_plain by exact H.
    unfold iteration. now rewrite H.
  - now rewrite iteration_unterminated, spec_iteration_unterminated.
  - rewrite iteration_keyStep, spec_iteration_keyStep by assumption.
    apply IH.
Qed.

Lemma concatTexts_push segments seg :
  concatTexts (push segments seg) = concatTexts segments ++ text seg.
Proof.
  unfold concatTexts, push.
  rewrite map_app, concat_app. simpl. now rewrite app_nil_r.
Qed.

Lemma concatTexts_prefix segments pre :
  concatTexts (if truthy pre then push segments (Normal pre) else segments) =
  concatTexts segments ++ pre.
Proof.
  destruct pre as [|c pre]; simpl.
  - now rewrite app_nil_r.
  - apply concatTexts_push.
Qed.

Lemma stripWrappers_plain fuel text :
  indexOf text startTag 0 = -1 -> Spec.stripWrappers fuel text = text.
Proof.
  intros H. destruct fuel; [reflexivity|].
  cbn [Spec.stripWrappers]. now rewrite H.
Qed.

Lemma stripWrappers_unterminated fuel pre m :
  indexOf (pre ++ startTag) startTag 0 = length pre ->
  indexOf (startTag ++ m) endTag 0 = -1 ->
  Spec.stripWrappers fuel (pre ++ startTag ++ m) = pre ++ startTag ++ m.
Proof.
  intros Hstart Hend. destruct fuel; [reflexivity|].
  destruct (indexOf_start_found pre m Hstart) as (E1 & E2 & _).
  cbn [Spec.stripWrappers]. rewrite E1, E2.
  pose proof (spec_endIdx_unterminated pre m Hend) as H. cbv zeta in H.
  destruct (indexOf (pre ++ startTag ++ m) (js "]]")
              (length pre + length startTag) =? -1); [reflexivity|].
  now rewrite H.
Qed.

Lemma stripWrappers_keyStep fuel pre hdr body rest :
  indexOf (pre ++ startTag) startTag 0 = length pre ->
  indexOf (hdr ++ js "]]") (js "]]") 0 = length hdr ->
  indexOf ((startTag ++ hdr ++ js "]]" ++ body) ++ endTag) endTag 0 =
    length (startTag ++ hdr ++ js "]]" ++ body) ->
  Spec.stripWrappers (S fuel)
    (pre ++ startTag ++ hdr ++ js "]]" ++ body ++ endTag ++ rest) =
  pre ++ body ++ Spec.stripWrappers fuel rest.
Proof.
  intros Hstart Hclose Hend.
  destruct (indexOf_start_found pre
              (hdr ++ js "]]" ++ body ++ endTag ++ rest) Hstart)
    as (E1 & E2 & _ & E4).
  destruct (spec_indices pre hdr body rest Hclose Hend)
    as (I1 & I2 & _ & I4 & I5).
  pose proof (length_nonneg pre). pose proof (length_nonneg hdr).
  pose proof (length_nonneg body). pose proof (length_nonneg startTag).
  cbn [Spec.stripWrappers]. rewrite E1, E2, E4, I1.
  assert ((length pre + length startTag + length hdr =? -1) = false)
    as -> by lia.
  rewrite I2.
  assert ((length pre + length startTag + length hdr + 2 + length body
           =? -1) = false) as -> by lia.
  now rewrite I4, I5.
Qed.

(** On texts with closed headers the texts of the segments, in order,
    make up the input without its wrappers. *)
Lemma closed_concat text :
  HeadersClosed text ->
  forall fuel segments,
    (List.length text < fuel)%nat ->
    option_map concatTexts (loop fuel segments text) =
    Some (concatTexts segments ++ Spec.stripWrappers fuel text).
Proof.
  induction 1 as [text H | pre m H1 H2 | pre hdr body rest H1 H2 H3 _ IH];
    intros [|fuel] segments Hlt; try lia.
  - rewrite stripWrappers_plain by exact H.
    cbn [loop]. unfold iteration. rewrite H.
    change (-1 =? -1) with true. cbv iota. cbn [option_map].
    now rewrite concatTexts_prefix.
  - rewrite stripWrappers_unterminated by assumption.
    cbn [loop]. rewrite iteration_unterminated by assumption.
    cbn [option_map]. rewrite concatTexts_push, concatTexts_prefix.
    cbn [text Normal]. now rewrite <- app_assoc.
  - rewrite stripWrappers_keyStep by assumption.
    cbn [loop]. rewrite iteration_keyStep by assumption.
    rewrite IH.
    + rewrite concatTexts_push, concatTexts_prefix.
      cbn [text KeyStep]. now rewrite <- !app_assoc.
    + rewrite !List.length_app in Hlt.
      change (List.length endTag) with 13%nat in Hlt. lia.
Qed.

End SpecFacts.

(* ================================================================== *)
(** ** The properties of the specification *)
(* ================================================================== *)

Import JS Regex KeyStepRenderer JSFacts RegexFacts LoopFacts SpecFacts.

(** On a text whose headers are all closed before the terminator that
    follows their start marker, the source returns the segments of the
    scan of section 4.1. *)
Theorem closed_headers_parse_as_specified text :
  HeadersClosed text -> parseKeySteps text = Spec.parse text.
Proof. intros H. apply closed_loops_agree, H. Qed.

(** On such a text the texts of the segments, concatenated in order, are
    the input with every wrapper removed and an unterminated tag, with
    all that follows it, left as it is. *)
Theorem closed_headers_segmentation_complete text :
  HeadersClosed text ->
  option_map concatTexts (parseKeySteps text) = Some (Spec.strip text).
Proof.
  intros H. unfold parseKeySteps, Spec.strip.
  now rewrite (closed_concat text H (S (List.length text)) []) by lia.
Qed.

Example closed_headers_example :
  let input :=
    js "see " ++ startTag ++ js " id=2" ++ js "]]" ++ js "a body" ++ endTag
       ++ js " then " ++ startTag ++ js " id=3]] open" in
  HeadersClosed input /\
  option_map concatTexts (parseKeySteps input) =
  Some (js "see a body then [[KEY_STEP id=3]] open").
Proof.
  assert (H : HeadersClosed
                (js "see " ++ startTag ++ js " id=2" ++ js "]]" ++ js "a body"
                    ++ endTag ++ js " then " ++ startTag ++ js " id=3]] open")).
  { apply Closed_keyStep; try reflexivity.
    apply Closed_unterminated; reflexivity. }
  split; [exact H|].
  now rewrite (closed_headers_segmentation_complete _ H).
Qed.

(** C1 (segmentation completeness) fails on a header that is not closed
    before the first terminator.  On the input
    [[[KEY_STEP lemma [[/KEY_STEP]] tail] the only closing pair after the
    start marker is the terminator's own: [parseKeySteps] takes it for
    the end of the header, returns a key segment with an empty body and
    then the normal segment [ tail], so the texts concatenate to [ tail]
    and the words of the header are lost; the input has no well-formed
    wrapper, and with the malformed tag left as it is the result would
    be the whole input. *)
Theorem unclosed_header_text_is_lost :
  let input := js "[[KEY_STEP lemma [[/KEY_STEP]] tail" in
  parseKeySteps input = Some [KeyStep [] None None; Normal (js " tail")] /\
  option_map concatTexts (parseKeySteps input) = Some (js " tail") /\
  Spec.strip input = input /\
  js " tail" <> input.
Proof. vm_compute. repeat split; discriminate. Qed.

(** C2: when no terminator follows the start marker found by a pass, the
    pass pushes the text before the marker (if any) and then the whole
    remainder, from the marker on, as one normal segment, and the loop
    ends there with a result; in particular [a [[KEY_STEP id=1]] b]
    parses to [Normal "a "] and [Normal "[[KEY_STEP id=1]] b"]. *)
Theorem unterminated_marker_is_literal :
  (forall fuel segments pre m,
      indexOf (pre ++ startTag) startTag 0 = length pre ->
      indexOf (startTag ++ m) endTag 0 = -1 ->
      loop (S fuel) segments (pre ++ startTag ++ m) =
      Some (push (if truthy pre then push segments (Normal pre)
                  else segments)
                 (Normal (startTag ++ m)))) /\
  parseKeySteps (js "a [[KEY_STEP id=1]] b") =
  Some [Normal (js "a "); Normal (js "[[KEY_STEP id=1]] b")].
Proof.
  split.
  - intros fuel segments pre m Hstart Hend. cbn [loop].
    now rewrite iteration_unterminated.
  - reflexivity.
Qed.

Lemma unterminated_marker_is_literal_witness :
  indexOf (js "a " ++ startTag) startTag 0 = length (js "a ") /\
  indexOf (startTag ++ js " id=1]] b") endTag 0 = -1 /\
  loop 1 [] (js "a " ++ startTag ++ js " id=1]] b") =
  Some [Normal (js "a "); Normal (startTag ++ js " id=1]] b")].
Proof.
  split; [reflexivity|]. split; [reflexivity|].
  apply (proj1 unterminated_marker_is_literal 0%nat [] (js "a ")
               (js " id=1]] b")); reflexivity.
Defined.

(** C3 as stated fails at the empty string, which has no start marker
    and parses to no segment at all, not to one empty normal segment. *)
Lemma no_tag_empty_counterexample :
  ~ (indexOf (js "") startTag 0 = -1 ->
     parseKeySteps (js "") = Some [Normal (js "")]).
Proof. intros H. specialize (H eq_refl). discriminate H. Qed.

(** C3, amended: a text without start marker parses to exactly one
    normal segment holding the whole text when the text is not empty,
    and to no segment when it is empty. *)
Theorem no_tag_single_normal text :
  indexOf text startTag 0 = -1 ->
  parseKeySteps text = Some (if truthy text then [Normal text] else []).
Proof.
  intros H. unfold parseKeySteps. cbn [loop]. unfold iteration.
  rewrite H. reflexivity.
Qed.

Lemma no_tag_single_normal_witness :
  indexOf (js "Let $x^2$ be [[ given") startTag 0 = -1 /\
  parseKeySteps (js "Let $x^2$ be [[ given") =
  Some [Normal (js "Let $x^2$ be [[ given")].
Proof.
  split; [reflexivity|].
  apply (no_tag_single_normal (js "Let $x^2$ be [[ given")). reflexivity.
Defined.

(** C4: the input [[[KEY_STEP id=7 theorem=Q Hahn-Banach Q]]proof
    body[[/KEY_STEP]]] (with [Q] the double quote, no spaces around the
    name) parses to exactly one key segment with id [7], theorem
    [Hahn-Banach] and text [proof body]. *)
Theorem attribute_extraction :
  parseKeySteps
    (js "[[KEY_STEP id=7 theorem=" ++ [quote] ++ js "Hahn-Banach" ++ [quote]
        ++ js "]]proof body[[/KEY_STEP]]") =
  Some [KeyStep (js "proof body") (Some (js "7")) (Some (js "Hahn-Banach"))].
Proof. reflexivity. Qed.

(** C5: [parseKeySteps] is total.  For every text the loop reaches a
    [break] within one pass more than the text has code units, and more
    fuel does not change the result; every pass either breaks or leaves
    a strictly shorter [remaining]. *)
Theorem parseKeySteps_total text :
  (exists segments,
      parseKeySteps text = Some segments /\
      forall extra,
        loop (S (List.length text) + extra) [] text = Some segments) /\
  (forall segments,
      match iteration segments text with
      | Break _ => True
      | Continue _ remaining' =>
          (List.length remaining' < List.length text)%nat
      end).
Proof.
  split.
  - destruct (loop_total (S (List.length text)) [] text) as [out E]; [lia|].
    exists out. split; [exact E|].
    intros extra. apply (loop_more_fuel _ _ _ _ _ E). lia.
  - intros segments.
    destruct (iteration segments text) as [n|n r] eqn:E; [exact I|].
    now apply iteration_shortens in E.
Qed.

(** C6 (a start marker is paired with the first terminator after its
    header) fails in the source when the closing pair of the header is
    the terminator's own, the defect of C1.  In
    [[[KEY_STEP id=1[[/KEY_STEP]]x[[/KEY_STEP]]y] the header of the
    start marker ends at offset 26 and the first terminator after it is
    at offset 29, as the scan of section 4.1 pairs them, with body [x]
    and [y] left; the source pairs the marker with the terminator at
    offset 15, inside the header: the key segment has an empty body,
    the id runs into the terminator, and [x[[/KEY_STEP]]y] is shown as
    normal text. *)
Theorem unclosed_header_pairs_overlapping_terminator :
  let input := js "[[KEY_STEP id=1[[/KEY_STEP]]x[[/KEY_STEP]]y" in
  let headerEnd := indexOf input (js "]]") (length startTag) in
  headerEnd = 26 /\
  indexOf input endTag (headerEnd + 2) = 29 /\
  indexOf input endTag 0 = 15 /\
  parseKeySteps input =
    Some [KeyStep [] (Some (js "1[[/KEY_STEP")) None;
          Normal (js "x[[/KEY_STEP]]y")] /\
  Spec.parse input =
    Some [KeyStep (js "x") (Some (js "1[[/KEY_STEP")) None;
          Normal (js "y")] /\
  parseKeySteps input <> Spec.parse input.
Proof. vm_compute. repeat split; discriminate. Qed.

(** Nested key steps are not supported where the header is closed
    before the first terminator that follows the start marker: a start
    marker inside the body is then part of the text of the key segment,
    and scanning goes on after the terminator. *)
Theorem nested_marker_is_body_text pre hdr inner1 inner2 rest :
  indexOf (pre ++ startTag) startTag 0 = length pre ->
  indexOf (hdr ++ js "]]") (js "]]") 0 = length hdr ->
  indexOf ((startTag ++ hdr ++ js "]]" ++ inner1 ++ startTag ++ inner2)
             ++ endTag) endTag 0 =
    length (startTag ++ hdr ++ js "]]" ++ inner1 ++ startTag ++ inner2) ->
  parseKeySteps
    (pre ++ startTag ++ hdr ++ js "]]" ++ (inner1 ++ startTag ++ inner2)
         ++ endTag ++ rest) =
  option_map
    (fun tail =>
       (if truthy pre then [Normal pre] else [])
         ++ KeyStep (inner1 ++ startTag ++ inner2)
                    (idMatch (trim hdr)) (theoremMatch (trim hdr))
         :: tail)
    (parseKeySteps rest).
Proof.
  intros Hstart Hclose Hend. unfold parseKeySteps at 1. cbn [loop].
  rewrite iteration_keyStep by assumption.
  rewrite loop_parse.
  - destruct (parseKeySteps rest) as [tail|]; [|reflexivity].
    cbn [option_map]. f_equal. unfold push.
    destruct (truthy pre); reflexivity.
  - rewrite !List.length_app. change (List.length endTag) with 13%nat. lia.
Qed.

Lemma nested_marker_is_body_text_witness :
  parseKeySteps
    (js "see " ++ startTag ++ js " id=2" ++ js "]]"
        ++ (js "outer " ++ startTag ++ js " id=3]] inner")
        ++ endTag ++ js " done[[/KEY_STEP]]") =
  Some [Normal (js "see ");
        KeyStep (js "outer [[KEY_STEP id=3]] inner") (Some (js "2")) None;
        Normal (js " done[[/KEY_STEP]]")].
Proof.
  rewrite (nested_marker_is_body_text (js "see ") (js " id=2")
             (js "outer ") (js " id=3]] inner") (js " done[[/KEY_STEP]]"));
    reflexivity.
Defined.

(** C7 (the terminator is searched after the header, the body is the
    text between the end of the header and that terminator, and the
    scan resumes after it) fails in the source on
    [[[KEY_STEP a[[/KEY_STEP]] b [[/KEY_STEP]] c], by the defect of C1:
    the only closing pair before the first terminator is that
    terminator's own.  A search that begins after the closing pair of
    the header finds the second terminator, with body [ b ] and [ c]
    left to scan; the pass of the source stops at the first terminator,
    gives an empty body, loses [ a] and goes on with
    [ b [[/KEY_STEP]] c]. *)
Theorem unclosed_header_search_stops_inside_header :
  let input := js "[[KEY_STEP a[[/KEY_STEP]] b [[/KEY_STEP]] c" in
  iteration [] input =
    Continue [KeyStep [] None None] (js " b [[/KEY_STEP]] c") /\
  Spec.iteration [] input =
    Continue [KeyStep (js " b ") None None] (js " c") /\
  iteration [] input <> Spec.iteration [] input.
Proof. vm_compute. repeat split; discriminate. Qed.

(** When the header is closed before the first terminator that follows
    the start marker, that terminator is also the first one after the
    header, the body of the key segment is exactly the text between the
    end of the header and the terminator, and scanning resumes
    immediately after the terminator. *)
Theorem body_between_header_and_terminator segments pre hdr body rest :
  indexOf (pre ++ startTag) startTag 0 = length pre ->
  indexOf (hdr ++ js "]]") (js "]]") 0 = length hdr ->
  indexOf ((startTag ++ hdr ++ js "]]" ++ body) ++ endTag) endTag 0 =
    length (startTag ++ hdr ++ js "]]" ++ body) ->
  let remaining :=
    pre ++ startTag ++ hdr ++ js "]]" ++ body ++ endTag ++ rest in
  let startIdx := indexOf remaining startTag 0 in
  let endIdx := indexOf remaining endTag startIdx in
  startIdx = length pre /\
  endIdx = length (pre ++ startTag ++ hdr ++ js "]]" ++ body) /\
  indexOf (body ++ endTag) endTag 0 = length body /\
  iteration segments remaining =
  Continue
    (push (if truthy pre then push segments (Normal pre) else segments)
          (KeyStep body (idMatch (trim hdr)) (theoremMatch (trim hdr))))
    rest.
Proof.
  intros Hstart Hclose Hend remaining startIdx endIdx.
  assert (Es : startIdx = length pre).
  { apply indexOf_first_app, Hstart. }
  split; [exact Es|]. split; [|split].
  - unfold endIdx. rewrite Es. unfold remaining.
    replace (pre ++ startTag ++ hdr ++ js "]]" ++ body ++ endTag ++ rest)
      with (pre ++ (startTag ++ hdr ++ js "]]" ++ body) ++ endTag ++ rest)
      by (now rewrite <- !app_assoc).
    rewrite (indexOf_app_first pre _ endTag rest Hend).
    now rewrite (length_app pre).
  - rewrite indexOf_0 in *.
    replace ((startTag ++ hdr ++ js "]]" ++ body) ++ endTag)
      with ((startTag ++ hdr ++ js "]]") ++ body ++ endTag) in Hend
      by (now rewrite <- !app_assoc).
    destruct (find endTag ((startTag ++ hdr ++ js "]]") ++ body ++ endTag))
      as [i|] eqn:E.
    + assert (i = (List.length (startTag ++ hdr ++ js "]]")
                   + List.length body)%nat) as ->.
      { unfold length in Hend. rewrite !List.length_app in *. lia. }
      now rewrite (find_app_skip _ _ _ _ E).
    + pose proof (length_nonneg (startTag ++ hdr ++ js "]]" ++ body)). lia.
  - now apply iteration_keyStep.
Qed.

Lemma body_between_header_and_terminator_witness :
  iteration [Normal (js "earlier")]
            (js "so " ++ startTag ++ js " id=4 " ++ js "]]"
                ++ js "by compactness" ++ endTag ++ js " hence") =
  Continue [Normal (js "earlier"); Normal (js "so ");
            KeyStep (js "by compactness") (Some (js "4")) None]
           (js " hence").
Proof.
  apply (body_between_header_and_terminator [Normal (js "earlier")]
           (js "so ") (js " id=4 ") (js "by compactness") (js " hence"));
    reflexivity.
Defined.

(** C8 as stated fails on a header whose value holds an escaped quote.
    For the header [theorem=Q a B Q b Q], with [Q] the double quote and
    [B] the backslash, the value up to the next unescaped quote would be
    [a B Q b]; the attribute extracted is [a B], cut at the quote that
    follows the backslash. *)
Lemma escaped_quote_counterexample :
  let input :=
    js "[[KEY_STEP theorem=" ++ [quote] ++ js "a" ++ [backslash; quote]
       ++ js "b" ++ [quote] ++ js "]]x[[/KEY_STEP]]" in
  parseKeySteps input =
    Some [KeyStep (js "x") None (Some (js "a" ++ [backslash]))] /\
  parseKeySteps input <>
    Some [KeyStep (js "x") None
                  (Some (js "a" ++ [backslash; quote] ++ js "b"))].
Proof. vm_compute. split; [reflexivity | discriminate]. Qed.

(** C8, amended: when the header contains [theorem=] followed by a
    double quote, and a further double quote closes the value, the
    attribute is everything after the first such opening up to the next
    double quote, whether a backslash precedes that quote or not. *)
Theorem theorem_value_ends_at_next_quote before value after :
  indexOf (before ++ theoremOpen) theoremOpen 0 = length before ->
  ~ In quote value ->
  theoremMatch (before ++ theoremOpen ++ value ++ quote :: after) =
  Some value.
Proof. apply theoremMatch_value. Qed.

Lemma theorem_value_ends_at_next_quote_witness :
  theoremMatch
    (js "id=3 " ++ theoremOpen ++ (js "Riesz" ++ [backslash])
        ++ quote :: js "s lemma" ++ [quote]) =
  Some (js "Riesz" ++ [backslash]).
Proof.
  apply (theorem_value_ends_at_next_quote (js "id=3 ")
           (js "Riesz" ++ [backslash]) (js "s lemma" ++ [quote])).
  - reflexivity.
  - intros H. repeat (destruct H as [H|H]; [discriminate H|]). exact H.
Defined.

(** C9: every normal segment returned has a non-empty text, and the
    empty string parses to no segment at all. *)
Theorem normal_segments_nonempty :
  (forall text,
      exists segments,
        parseKeySteps text = Some segments /\
        Forall normalNonEmpty segments) /\
  parseKeySteps (js "") = Some [].
Proof.
  split.
  - apply parse_Forall, iteration_normalNonEmpty.
  - reflexivity.
Qed.

(** C10: in every segment returned, and so in every key segment, an
    [id] that is present is a non-empty token without white space and a
    [theorem] that is present holds no double quote. *)
Theorem key_attributes_well_formed text :
  exists segments,
    parseKeySteps text = Some segments /\
    Forall attributesWellFormed segments.
Proof. apply parse_Forall, iteration_attributes. Qed.

(* ================================================================== *)
(** ** Every pass of the loop, case by case *)
(* ================================================================== *)

Module PassFacts.
Import JS Regex KeyStepRenderer JSFacts LoopFacts.

Lemma find_Some_startsWith needle s i :
  find needle s = Some i -> startsWith needle (skipn i s) = true.
Proof.
  revert i; induction s as [|c s IH]; intros i; simpl.
  - destruct (startsWith needle []) eqn:E; [|discriminate].
    now intros [= <-].
  - destruct (startsWith needle (c :: s)) eqn:E.
    + now intros [= <-].
    + destruct (find needle s) as [j|]; simpl; [|discriminate].
      intros [= <-]. now apply IH.
Qed.

(** The first occurrence in a longer text is the first one in the text
    cut right after it. *)
Lemma find_app_prefix needle a b :
  find needle (a ++ needle ++ b) = Some (List.length a) ->
  find needle (a ++ needle) = Some (List.length a).
Proof.
  induction a as [|c a IH]; simpl.
  - intros _. rewrite find_eq. rewrite <- (app_nil_r needle) at 2.
    now rewrite startsWith_app.
  - assert (E : startsWith needle (c :: a ++ needle ++ b) =
                startsWith needle (c :: a ++ needle)).
    { replace (c :: a ++ needle ++ b) with ((c :: a ++ needle) ++ b)
        by (rewrite <- app_comm_cons, <- app_assoc; reflexivity).
      apply startsWith_app_r.
      cbn [List.length]; rewrite List.length_app; lia. }
    rewrite E.
    destruct (startsWith needle (c :: a ++ needle)); [discriminate|].
    destruct (find needle (a ++ needle ++ b)) as [i|] eqn:F;
      cbn [option_map]; [|discriminate].
    intros [= ->]. now rewrite IH.
Qed.

(** An occurrence makes the search succeed, at that place or before. *)
Lemma find_occurrence needle a b :
  exists i, find needle (a ++ needle ++ b) = Some i /\
            (i <= List.length a)%nat.
Proof.
  induction a as [|c a IH]; cbn [app List.length].
  - exists O. now rewrite find_eq, startsWith_app.
  - rewrite find_eq. destruct (startsWith needle (c :: a ++ needle ++ b)).
    + exists O. split; [reflexivity | lia].
    + destruct IH as (i & -> & Hi). exists (S i). split; [reflexivity | lia].
Qed.

Lemma find_None_substring needle a t b :
  find needle (a ++ t ++ b) = None -> find needle t = None.
Proof.
  intros H. destruct (find needle t) as [j|] eqn:E; [|reflexivity].
  apply find_occurs in E. rewrite E in H.
  destruct (find_occurrence needle (a ++ firstn j t)
              (skipn (j + List.length needle) t ++ b)) as (i & Hi & _).
  rewrite <- !app_assoc in *. congruence.
Qed.

(** A terminator does not begin inside a start tag. *)
Lemma endTag_not_in_startTag s d :
  startsWith startTag s = true ->
  (d < 10)%nat ->
  startsWith endTag (skipn d s) = false.
Proof.
  intros H Hd. apply startsWith_iff in H as [r ->].
  do 10 (destruct d as [|d]; [reflexivity|]). lia.
Qed.

(** What the two searches of a pass find, read as a decomposition of
    [remaining]. *)
Lemma remaining_shape remaining :
  indexOf remaining startTag 0 = -1 \/
  (exists pre m,
      remaining = pre ++ startTag ++ m /\
      indexOf (pre ++ startTag) startTag 0 = length pre /\
      indexOf (startTag ++ m) endTag 0 = -1) \/
  (exists pre mid rest,
      remaining = pre ++ startTag ++ mid ++ endTag ++ rest /\
      indexOf (pre ++ startTag) startTag 0 = length pre /\
      indexOf ((startTag ++ mid) ++ endTag) endTag 0 =
        length (startTag ++ mid)).
Proof.
  rewrite indexOf_0.
  destruct (find startTag remaining) as [i|] eqn:Es; [right | now left].
  pose proof (find_bound _ _ _ Es) as Hi.
  pose proof (find_occurs _ _ _ Es) as Hr.
  set (pre := firstn i remaining) in *.
  set (after := skipn (i + List.length startTag) remaining) in *.
  assert (Lpre : List.length pre = i)
    by (unfold pre; rewrite length_firstn; lia).
  assert (Hfirst : indexOf (pre ++ startTag) startTag 0 = length pre).
  { rewrite indexOf_0. rewrite Hr, <- Lpre in Es.
    rewrite (find_app_prefix _ _ _ Es). reflexivity. }
  destruct (find endTag (startTag ++ after)) as [j|] eqn:Ee.
  - right. pose proof (find_bound _ _ _ Ee) as Hj.
    pose proof (find_Some_startsWith _ _ _ Ee) as Hsw.
    assert (Hj10 : (10 <= j)%nat).
    { destruct (Nat.lt_ge_cases j 10) as [Hlt|]; [|assumption].
      rewrite (endTag_not_in_startTag _ j (startsWith_app _ _) Hlt) in Hsw.
      discriminate. }
    pose proof (find_occurs _ _ _ Ee) as Ha.
    set (mid := firstn (j - 10) after).
    set (rest := skipn (j + List.length endTag) (startTag ++ after)) in *.
    assert (Hcut : firstn j (startTag ++ after) = startTag ++ mid).
    { rewrite firstn_app. change (List.length startTag) with 10%nat.
      now rewrite firstn_all2 by (change (List.length startTag) with 10%nat;
                                  lia). }
    rewrite Hcut in Ha.
    assert (Lmid : List.length (startTag ++ mid) = j).
    { rewrite <- Hcut, length_firstn. rewrite List.length_app in *. lia. }
    assert (Ee' : find endTag ((startTag ++ mid) ++ endTag ++ rest) =
                  Some (List.length (startTag ++ mid))).
    { rewrite <- Ha, Lmid. exact Ee. }
    exists pre, mid, rest.
    split; [|split].
    + rewrite Hr at 1. f_equal. rewrite Ha.
      now rewrite <- !app_assoc.
    + exact Hfirst.
    + rewrite indexOf_0, (find_app_prefix _ _ _ Ee'). reflexivity.
  - left. exists pre, after. split; [exact Hr|]. split; [exact Hfirst|].
    rewrite indexOf_0, Ee. reflexivity.
Qed.

(** A pass over a start marker and the first terminator that follows
    it, whatever lies between them. *)
Lemma iteration_tagged segments pre mid rest :
  indexOf (pre ++ startTag) startTag 0 = length pre ->
  indexOf ((startTag ++ mid) ++ endTag) endTag 0 = length (startTag ++ mid) ->
  iteration segments (pre ++ startTag ++ mid ++ endTag ++ rest) =
  Continue
    (push (if truthy pre then push segments (Normal pre) else segments)
          (keySegment ((startTag ++ mid) ++ endTag)))
    rest.
Proof.
  intros Hstart Hend.
  destruct (indexOf_start_found pre (mid ++ endTag ++ rest) Hstart)
    as (E1 & E2 & E3 & E4).
  unfold iteration. rewrite E1, E2, E3, E4.
  set (A := startTag ++ mid) in *.
  replace (pre ++ startTag ++ mid ++ endTag ++ rest)
    with (pre ++ A ++ endTag ++ rest)
    by (unfold A; now rewrite <- !app_assoc).
  rewrite (indexOf_app_first pre A endTag rest Hend).
  assert ((length pre + length A =? -1) = false) as ->.
  { pose proof (length_nonneg pre). pose proof (length_nonneg A). lia. }
  replace (length pre + length A + length endTag)
    with (length pre + length (A ++ endTag)) by (rewrite length_app; lia).
  replace (pre ++ A ++ endTag ++ rest) with (pre ++ (A ++ endTag) ++ rest)
    by (now rewrite <- !app_assoc).
  rewrite slice_app_mid.
  replace (pre ++ (A ++ endTag) ++ rest) with ((pre ++ A ++ endTag) ++ rest)
    by (now rewrite <- !app_assoc).
  replace (length pre + length (A ++ endTag))
    with (length (pre ++ A ++ endTag)) by (now rewrite !length_app).
  now rewrite sliceFrom_app.
Qed.

(** The first closing pair between a start marker and its terminator
    either closes a header inside [mid], or is the terminator's own. *)
Lemma mid_shape mid :
  (exists hdr body,
      mid = hdr ++ js "]]" ++ body /\
      indexOf (hdr ++ js "]]") (js "]]") 0 = length hdr) \/
  indexOf (mid ++ endTag) (js "]]") 0 = length mid + 11.
Proof.
  rewrite (indexOf_0 (mid ++ endTag)).
  destruct (find (js "]]") (mid ++ endTag)) as [k|] eqn:Ek.
  2:{ exfalso. apply (find_None_app (js "]]") (mid ++ js "[[/KEY_STEP")).
      rewrite <- app_assoc. exact Ek. }
  destruct (le_lt_dec (k + 2) (List.length mid)) as [Hin|Hout].
  - left. pose proof (find_Some_startsWith _ _ _ Ek) as Hsw.
    rewrite skipn_app in Hsw.
    replace (k - List.length mid)%nat with O in Hsw by lia.
    rewrite skipn_O in Hsw.
    rewrite startsWith_app_r in Hsw
      by (rewrite length_skipn; change (List.length (js "]]")) with 2%nat;
          lia).
    apply startsWith_iff in Hsw as [body Hbody].
    exists (firstn k mid), body.
    assert (Hmid : mid = firstn k mid ++ js "]]" ++ body).
    { rewrite <- Hbody. symmetry. apply firstn_skipn. }
    split; [exact Hmid|].
    rewrite indexOf_0.
    assert (Lk : List.length (firstn k mid) = k)
      by (rewrite length_firstn; lia).
    rewrite Hmid, <- !app_assoc in Ek. rewrite <- Lk in Ek at 2.
    rewrite (find_app_prefix _ _ _ Ek). reflexivity.
  - right. destruct (le_lt_dec (List.length mid) k) as [Hge|Hlt].
    + replace k with (List.length mid + (k - List.length mid))%nat in Ek
        by lia.
      apply find_app_skip in Ek.
      change (find (js "]]") endTag) with (Some 11%nat) in Ek.
      injection Ek as Ek. unfold length. lia.
    + exfalso.
      assert (Lt : List.length (skipn k mid) = 1%nat)
        by (rewrite length_skipn; lia).
      destruct (skipn k mid) as [|c [|c' t]] eqn:Et; try discriminate Lt.
      rewrite <- (firstn_skipn k mid), Et, <- app_assoc in Ek.
      replace k with (List.length (firstn k mid) + 0)%nat in Ek at 2
        by (rewrite length_firstn; lia).
      apply find_app_skip in Ek.
      apply find_Some_startsWith in Ek.
      change (startsWith (js "]]") (skipn 0 ([c] ++ endTag)))
        with ((93 =? c)%N && false) in Ek.
      rewrite andb_false_r in Ek. discriminate Ek.
Qed.

Lemma slice_past_end s start end_ :
  relative (length s) end_ <= relative (length s) start ->
  slice s start end_ = [].
Proof.
  intros H. unfold slice.
  replace (Z.max (relative (length s) end_ - relative (length s) start) 0)
    with 0 by lia.
  reflexivity.
Qed.

(** The key segment of a header that no pair of its own closes: the
    header runs into the terminator, the body is empty. *)
Lemma keySegment_unclosed hdr :
  indexOf (hdr ++ endTag) (js "]]") 0 = length hdr + 11 ->
  keySegment ((startTag ++ hdr) ++ endTag) =
  KeyStep [] (idMatch (trim (hdr ++ js "[[/KEY_STEP")))
          (theoremMatch (trim (hdr ++ js "[[/KEY_STEP"))).
Proof.
  intros Hclose. unfold keySegment.
  assert (HE : indexOf ((startTag ++ hdr) ++ endTag) (js "]]") 0 =
               length startTag + length (hdr ++ js "[[/KEY_STEP")).
  { rewrite <- app_assoc. rewrite indexOf_0 in *.
    rewrite find_close_startTag.
    destruct (find (js "]]") (hdr ++ endTag)); cbn [option_map].
    - rewrite length_app, Nat2Z.inj_add.
      change (length startTag) with 10.
      change (length (js "[[/KEY_STEP")) with 11. lia.
    - pose proof (length_nonneg hdr). lia. }
  rewrite HE.
  assert (HT : (startTag ++ hdr) ++ endTag =
               startTag ++ (hdr ++ js "[[/KEY_STEP") ++ js "]]").
  { rewrite <- !app_assoc. reflexivity. }
  rewrite HT, slice_app_mid. unfold KeyStep. f_equal.
  apply slice_past_end. unfold relative. rewrite !length_app.
  pose proof (length_nonneg hdr).
  change (length startTag) with 10.
  change (length (js "[[/KEY_STEP")) with 11.
  change (length (js "]]")) with 2. change (length endTag) with 13.
  destruct (Z.ltb_spec (- (13)) 0); [|lia].
  destruct (Z.ltb_spec (10 + (length hdr + 11) + 2) 0); lia.
Qed.


(** Nothing before a first occurrence holds an occurrence. *)
Lemma find_None_before needle a :
  needle <> [] ->
  find needle (a ++ needle) = Some (List.length a) ->
  find needle a = None.
Proof.
  intros Hne H. destruct (find needle a) as [j|] eqn:E; [|reflexivity].
  pose proof (find_bound _ _ _ E) as Hb. apply find_occurs in E.
  destruct (find_occurrence needle (firstn j a)
              (skipn (j + List.length needle) a ++ needle)) as (i & Hi & Hle).
  rewrite length_firstn in Hle.
  assert (Heq : a ++ needle =
                firstn j a ++ needle
                  ++ skipn (j + List.length needle) a ++ needle).
  { transitivity
      ((firstn j a ++ needle ++ skipn (j + List.length needle) a) ++ needle).
    - f_equal. exact E.
    - now rewrite <- !app_assoc. }
  rewrite <- Heq, H in Hi. injection Hi as Hi.
  assert (0 < List.length needle)%nat by (destruct needle; simpl; [easy|lia]).
  lia.
Qed.

Lemma startTag_nonempty : startTag <> [].
Proof. discriminate. Qed.

Lemma endTag_nonempty : endTag <> [].
Proof. discriminate. Qed.

Lemma indexOf_none_before needle a :
  needle <> [] ->
  indexOf (a ++ needle) needle 0 = length a ->
  indexOf a needle 0 = -1.
Proof.
  intros Hne H. rewrite indexOf_0 in *.
  destruct (find needle (a ++ needle)) as [i|] eqn:E.
  - assert (i = List.length a) as -> by (unfold length in H; lia).
    now rewrite (find_None_before _ _ Hne E).
  - pose proof (length_nonneg a). lia.
Qed.

(** The text between a start marker and the first terminator that
    follows the marker holds no terminator. *)
Lemma mid_has_no_terminator mid :
  indexOf ((startTag ++ mid) ++ endTag) endTag 0 = length (startTag ++ mid) ->
  indexOf mid endTag 0 = -1.
Proof.
  intros H. apply (indexOf_none_before _ _ endTag_nonempty) in H.
  rewrite indexOf_0 in *.
  destruct (find endTag (startTag ++ mid)) as [i|] eqn:E.
  - pose proof (Nat2Z.is_nonneg i). lia.
  - rewrite <- (app_nil_r (startTag ++ mid)), <- app_assoc in E.
    now rewrite (find_None_substring _ _ _ _ E).
Qed.

(** The body of a key segment is a piece of the text between the start
    marker and the terminator. *)
Lemma keySegment_body mid :
  type (keySegment ((startTag ++ mid) ++ endTag)) = key /\
  exists a b,
    mid = a ++ text (keySegment ((startTag ++ mid) ++ endTag)) ++ b.
Proof.
  split; [reflexivity|].
  destruct (mid_shape mid) as [(hdr & body & -> & Hclose)|Hopen].
  - rewrite (keySegment_closed hdr body Hclose).
    exists (hdr ++ js "]]"), []. cbn [text KeyStep].
    now rewrite app_nil_r, <- app_assoc.
  - rewrite (keySegment_unclosed mid Hopen). now exists [], mid.
Qed.

(** The three ways a pass can go, on any [remaining]. *)
Lemma pass_summary remaining :
  (indexOf remaining startTag 0 = -1 /\
   iteration [] remaining =
   Break (if truthy remaining then [Normal remaining] else [])) \/
  (exists pre m,
      remaining = pre ++ startTag ++ m /\
      indexOf pre startTag 0 = -1 /\
      indexOf (startTag ++ m) endTag 0 = -1 /\
      iteration [] remaining =
      Break ((if truthy pre then [Normal pre] else [])
               ++ [Normal (startTag ++ m)])) \/
  (exists pre mid rest seg,
      remaining = pre ++ startTag ++ mid ++ endTag ++ rest /\
      indexOf pre startTag 0 = -1 /\
      indexOf mid endTag 0 = -1 /\
      type seg = key /\
      (exists a b, mid = a ++ text seg ++ b) /\
      iteration [] remaining =
      Continue ((if truthy pre then [Normal pre] else []) ++ [seg]) rest).
Proof.
  destruct (remaining_shape remaining)
    as [Hplain | [(pre & m & -> & Hs & He) | (pre & mid & rest & -> & Hs & He)]].
  - left. split; [exact Hplain|].
    unfold iteration. rewrite Hplain. reflexivity.
  - right; left. exists pre, m. repeat split; try assumption.
    + now apply (indexOf_none_before _ _ startTag_nonempty).
    + rewrite (iteration_unterminated [] pre m Hs He).
      unfold push. now destruct (truthy pre).
  - right; right.
    exists pre, mid, rest, (keySegment ((startTag ++ mid) ++ endTag)).
    destruct (keySegment_body mid) as [Hk Hb].
    repeat split; try assumption.
    + now apply (indexOf_none_before _ _ startTag_nonempty).
    + now apply mid_has_no_terminator.
    + rewrite (iteration_tagged [] pre mid rest Hs He).
      unfold push. now destruct (truthy pre).
Qed.

(** Induction over the passes of the loop. *)
Lemma loop_pass_induction (Q : list KeyStepSegment -> jsstring -> Prop) :
  (forall remaining n, iteration [] remaining = Break n -> Q n remaining) ->
  (forall remaining n remaining' out,
      iteration [] remaining = Continue n remaining' ->
      Q out remaining' -> Q (n ++ out) remaining) ->
  forall fuel remaining out,
    loop fuel [] remaining = Some out -> Q out remaining.
Proof.
  intros Hbreak Hcontinue fuel;
    induction fuel as [|fuel IH]; intros r out; cbn [loop].
  - discriminate.
  - destruct (iteration [] r) as [n|n r'] eqn:E.
    + intros [= <-]. now apply Hbreak.
    + rewrite loop_prepend.
      destruct (loop fuel [] r') as [out'|] eqn:E'; [|discriminate].
      intros [= <-]. apply (Hcontinue _ _ r'); [exact E | now apply IH].
Qed.

Lemma parse_pass_induction (Q : list KeyStepSegment -> jsstring -> Prop) :
  (forall remaining n, iteration [] remaining = Break n -> Q n remaining) ->
  (forall remaining n remaining' out,
      iteration [] remaining = Continue n remaining' ->
      Q out remaining' -> Q (n ++ out) remaining) ->
  forall text,
  exists segments, parseKeySteps text = Some segments /\ Q segments text.
Proof.
  intros Hbreak Hcontinue text.
  destruct (loop_total (S (List.length text)) [] text) as [out E]; [lia|].
  exists out. split; [exact E|].
  exact (loop_pass_induction Q Hbreak Hcontinue _ _ _ E).
Qed.

End PassFacts.

(* ================================================================== *)
(** ** Further properties of the parser *)
(* ================================================================== *)

Module LayoutFacts.
Import JS Regex KeyStepRenderer Layout JSFacts LoopFacts PassFacts.

Lemma InOrder_at ts s gap t s' :
  s = gap ++ t ++ s' -> InOrder ts s' -> InOrder (t :: ts) s.
Proof. intros ->. apply InOrder_cons. Qed.

Lemma InOrder_gap ts gap s : InOrder ts s -> InOrder ts (gap ++ s).
Proof.
  intros [s'|g t ts' s' H]; [constructor|].
  apply (InOrder_at _ _ (gap ++ g) t s'); [|exact H].
  now rewrite <- app_assoc.
Qed.

Lemma concatTexts_app a b :
  concatTexts (a ++ b) = concatTexts a ++ concatTexts b.
Proof. unfold concatTexts. now rewrite map_app, concat_app. Qed.

Lemma keyCount_app a b : keyCount (a ++ b) = (keyCount a + keyCount b)%nat.
Proof. unfold keyCount. now rewrite filter_app, List.length_app. Qed.

(** The segments pushed before the key segment or the remainder. *)
Lemma prefix_cases (pre : jsstring) :
  (pre = [] /\ (if truthy pre then [Normal pre] else []) = []) \/
  (pre <> [] /\ (if truthy pre then [Normal pre] else []) = [Normal pre]).
Proof. destruct pre; [left | right]; split; easy. Qed.

(** A property of every segment pushed holds of all segments returned;
    the segments pushed are read off [pass_summary]. *)
Lemma parse_Forall_summary (P : KeyStepSegment -> Prop) :
  (forall remaining,
      indexOf remaining startTag 0 = -1 -> remaining <> [] ->
      P (Normal remaining)) ->
  (forall pre, indexOf pre startTag 0 = -1 -> pre <> [] -> P (Normal pre)) ->
  (forall m, indexOf (startTag ++ m) endTag 0 = -1 ->
             P (Normal (startTag ++ m))) ->
  (forall mid seg,
      indexOf mid endTag 0 = -1 -> type seg = key ->
      (exists a b, mid = a ++ text seg ++ b) -> P seg) ->
  forall text,
  exists segments, parseKeySteps text = Some segments /\ Forall P segments.
Proof.
  intros Hplain Hpre Hopen Hkey. apply parse_Forall. intros r.
  destruct (pass_summary r)
    as [[Hs ->] | [(pre & m & -> & Hs & He & ->)
                  | (pre & mid & rest & seg & -> & Hs & He & Ht & Hb & ->)]].
  - destruct r as [|c r]; cbn [truthy]; [constructor|].
    repeat constructor. now apply Hplain.
  - apply Forall_app. split.
    + destruct (prefix_cases pre) as [[_ ->]|[Hne ->]]; [constructor|].
      repeat constructor. now apply Hpre.
    + repeat constructor. now apply Hopen.
  - apply Forall_app. split.
    + destruct (prefix_cases pre) as [[_ ->]|[Hne ->]]; [constructor|].
      repeat constructor. now apply Hpre.
    + repeat constructor. now apply (Hkey mid).
Qed.

End LayoutFacts.

Import PassFacts Layout LayoutFacts.


(** The texts of the segments returned occur in the input one after the
    other, in the order of the segments and without overlap: the parser
    never makes up text, repeats it or reorders it. *)
Theorem segments_lie_in_order text :
  exists segments,
    parseKeySteps text = Some segments /\
    InOrder (map KeyStepRenderer.text segments) text.
Proof.
  apply (parse_pass_induction
           (fun segments remaining =>
              InOrder (map KeyStepRenderer.text segments) remaining)).
  - intros r n E.
    destruct (pass_summary r)
      as [[Hs E'] | [(pre & m & -> & Hs & He & E')
                    | (pre & mid & rest & seg & -> & _ & _ & _ & _ & E')]];
      rewrite E' in E; [| |discriminate]; injection E as <-.
    + destruct r as [|c r]; cbn [truthy map]; [constructor|].
      apply (InOrder_at _ _ [] (c :: r) []); [|constructor].
      now rewrite app_nil_r.
    + rewrite map_app.
      destruct (prefix_cases pre) as [[-> ->]|[_ ->]]; cbn [map app].
      * apply (InOrder_at _ _ [] (startTag ++ m) []); [|constructor].
        now rewrite app_nil_r.
      * apply (InOrder_at _ _ [] pre (startTag ++ m)); [reflexivity|].
        apply (InOrder_at _ _ [] (startTag ++ m) []); [|constructor].
        now rewrite app_nil_r.
  - intros r n r' out E IH.
    destruct (pass_summary r)
      as [[Hs E'] | [(pre & m & -> & Hs & He & E')
                    | (pre & mid & rest & seg & -> & _ & _ & _
                       & (a & b & ->) & E')]];
      rewrite E' in E; [discriminate|discriminate|].
    injection E as <- <-. rewrite !map_app. cbn [map].
    assert (Hkey : InOrder (KeyStepRenderer.text seg
                              :: map KeyStepRenderer.text out)
                     (startTag ++ (a ++ KeyStepRenderer.text seg ++ b)
                               ++ endTag ++ rest)).
    { apply (InOrder_at _ _ (startTag ++ a) _ (b ++ endTag ++ rest)).
      - now rewrite <- !app_assoc.
      - do 2 apply InOrder_gap. exact IH. }
    destruct (prefix_cases pre) as [[-> ->]|[_ ->]]; cbn [map app].
    + exact Hkey.
    + now apply (InOrder_at _ _ [] pre _ eq_refl).
Qed.

(** The body of a key segment never holds a terminator. *)
Theorem key_bodies_hold_no_terminator text :
  exists segments,
    parseKeySteps text = Some segments /\
    Forall (fun seg =>
              type seg = key ->
              indexOf (KeyStepRenderer.text seg) endTag 0 = -1)
           segments.
Proof.
  apply parse_Forall_summary; try (intros; discriminate).
  intros mid seg Hmid _ (a & b & ->) _.
  rewrite indexOf_0 in *.
  destruct (find endTag (a ++ KeyStepRenderer.text seg ++ b)) as [i|] eqn:E.
  - pose proof (Nat2Z.is_nonneg i). lia.
  - now rewrite (find_None_substring _ _ _ _ E).
Qed.

(** A normal segment never holds a complete key step: either it has no
    start marker at all, or it begins with a start marker and has no
    terminator (the remainder after an unterminated marker). *)
Theorem normal_segments_hold_no_key_step text :
  exists segments,
    parseKeySteps text = Some segments /\
    Forall (fun seg =>
              type seg = normal ->
              indexOf (KeyStepRenderer.text seg) startTag 0 = -1 \/
              (startsWith startTag (KeyStepRenderer.text seg) = true /\
               indexOf (KeyStepRenderer.text seg) endTag 0 = -1))
           segments.
Proof.
  apply parse_Forall_summary.
  - intros r Hs _ _. now left.
  - intros pre Hs _ _. now left.
  - intros m He _. right. split; [apply startsWith_app | exact He].
  - intros mid seg _ Ht _ Hn. rewrite Ht in Hn. discriminate.
Qed.

(** The texts of the segments together are shorter than the input by at
    least the 23 code units of start tag and terminator for every key
    segment: the output is never longer than the input. *)
Theorem segment_texts_fit_in_input text :
  exists segments,
    parseKeySteps text = Some segments /\
    (List.length (concatTexts segments) + 23 * keyCount segments
     <= List.length text)%nat.
Proof.
  apply (parse_pass_induction
           (fun segments remaining =>
              (List.length (concatTexts segments) + 23 * keyCount segments
               <= List.length remaining)%nat)).
  - intros r n E.
    destruct (pass_summary r)
      as [[Hs E'] | [(pre & m & -> & Hs & He & E')
                    | (pre & mid & rest & seg & -> & _ & _ & _ & _ & E')]];
      rewrite E' in E; [| |discriminate]; injection E as <-.
    + destruct r as [|c r]; cbn [truthy]; [simpl; lia|].
      unfold concatTexts, keyCount. cbn. rewrite app_nil_r. lia.
    + rewrite concatTexts_app, keyCount_app, !List.length_app.
      destruct (prefix_cases pre) as [[-> ->]|[_ ->]];
        unfold concatTexts, keyCount; cbn; rewrite ?app_nil_r;
        rewrite ?List.length_app; cbn; lia.
  - intros r n r' out E IH.
    destruct (pass_summary r)
      as [[Hs E'] | [(pre & m & -> & Hs & He & E')
                    | (pre & mid & rest & seg & -> & _ & _ & Ht
                       & (a & b & Hmid) & E')]];
      rewrite E' in E; [discriminate|discriminate|].
    injection E as <- <-.
    assert (Lmid : (List.length (KeyStepRenderer.text seg)
                    <= List.length mid)%nat).
    { rewrite Hmid, !List.length_app. lia. }
    assert (Kseg : keyCount [seg] = 1%nat).
    { unfold keyCount, isKey. cbn. now rewrite Ht. }
    assert (Cseg : concatTexts [seg] = KeyStepRenderer.text seg).
    { unfold concatTexts. cbn. now rewrite app_nil_r. }
    rewrite !concatTexts_app, !keyCount_app, !List.length_app, Kseg, Cseg.
    change (List.length startTag) with 10%nat.
    change (List.length endTag) with 13%nat.
    destruct (prefix_cases pre) as [[-> ->]|[_ ->]].
    + change (concatTexts []) with (@nil code_unit).
      change (keyCount []) with 0%nat. cbn [List.length]. lia.
    + assert (concatTexts [Normal pre] = pre) as ->
        by (unfold concatTexts; cbn; now rewrite app_nil_r).
      change (keyCount [Normal pre]) with 0%nat. lia.
Qed.

Module AttributeFacts.
Import JS Regex KeyStepRenderer JSFacts RegexFacts LoopFacts PassFacts.

(** When the first closing pair after a header is the terminator's own,
    that terminator is the first one after the start marker. *)
Lemma unclosed_first_terminator hdr :
  indexOf (hdr ++ endTag) (js "]]") 0 = length hdr + 11 ->
  indexOf ((startTag ++ hdr) ++ endTag) endTag 0 = length (startTag ++ hdr).
Proof.
  intros Hclose. rewrite indexOf_0 in *.
  destruct (find_occurrence endTag (startTag ++ hdr) []) as (i & Hi & Hle).
  rewrite app_nil_r in Hi. rewrite Hi.
  destruct (Nat.eq_dec i (List.length (startTag ++ hdr))) as [->|Hne];
    [reflexivity|].
  exfalso.
  pose proof (find_Some_startsWith _ _ _ Hi) as Hsw.
  assert (Hi10 : (10 <= i)%nat).
  { destruct (Nat.lt_ge_cases i 10) as [Hlt|]; [|assumption].
    rewrite <- app_assoc in Hsw.
    rewrite (endTag_not_in_startTag _ i (startsWith_app _ _) Hlt) in Hsw.
    discriminate. }
  rewrite <- app_assoc, skipn_app in Hsw.
  change (List.length startTag) with 10%nat in *.
  rewrite skipn_all2 in Hsw by (change (List.length startTag) with 10%nat; lia).
  rewrite app_nil_l in Hsw. apply startsWith_iff in Hsw as [y Hy].
  pose proof (firstn_skipn (i - 10) (hdr ++ endTag)) as Hsplit.
  rewrite Hy in Hsplit.
  pose proof (length_firstn (i - 10) (hdr ++ endTag)) as LF.
  remember (firstn (i - 10) (hdr ++ endTag)) as F eqn:EF.
  assert (Hsplit' : (F ++ js "[[/KEY_STEP") ++ js "]]" ++ y = hdr ++ endTag).
  { rewrite <- Hsplit, <- !app_assoc. reflexivity. }
  destruct (find_occurrence (js "]]") (F ++ js "[[/KEY_STEP") y)
    as (k & Hk & Hkle).
  rewrite Hsplit' in Hk. rewrite Hk in Hclose.
  rewrite List.length_app, LF in Hkle.
  change (List.length (js "[[/KEY_STEP")) with 11%nat in Hkle.
  rewrite List.length_app in Hle, Hne.
  change (List.length startTag) with 10%nat in *.
  unfold length in Hclose. lia.
Qed.

(** Positions at which the literal prefix of a pattern does not begin
    are skipped by the leftmost match. *)
Lemma leftmost_skip {A : Type} (f : jsstring -> option A) needle a b :
  (forall x, startsWith needle x = false -> f x = None) ->
  find needle (a ++ needle) = Some (List.length a) ->
  leftmost f (a ++ needle ++ b) = leftmost f (needle ++ b).
Proof.
  intros Hf. induction a as [|c a IH]; [reflexivity|].
  rewrite <- !app_comm_cons. rewrite find_eq.
  destruct (startsWith needle (c :: a ++ needle)) eqn:E; [discriminate|].
  intros H. rewrite leftmost_eq.
  assert (E' : startsWith needle (c :: a ++ needle ++ b) = false).
  { replace (c :: a ++ needle ++ b) with ((c :: a ++ needle) ++ b)
      by (rewrite <- app_comm_cons, <- app_assoc; reflexivity).
    rewrite startsWith_app_r; [exact E|].
    cbn [List.length]; rewrite List.length_app; lia. }
  rewrite (Hf _ E'). apply IH.
  destruct (find needle (a ++ needle)) as [i|]; cbn [option_map] in H;
    [|discriminate].
  injection H as H. now subst i.
Qed.

Lemma leftmost_None {A : Type} (f : jsstring -> option A) needle s :
  (forall x, startsWith needle x = false -> f x = None) ->
  find needle s = None ->
  leftmost f s = None.
Proof.
  intros Hf. induction s as [|c s IH]; simpl.
  - destruct (startsWith needle []) eqn:E; [discriminate|].
    intros _. now rewrite (Hf _ E).
  - destruct (startsWith needle (c :: s)) eqn:E; [discriminate|].
    rewrite (Hf _ E).
    destruct (find needle s); [discriminate|]. intros _. now apply IH.
Qed.

Lemma idAnchored_prefix x :
  startsWith (js "id=") x = false -> idAnchored x = None.
Proof. intros H. unfold idAnchored. now rewrite H. Qed.

Lemma theoremAnchored_prefix x :
  startsWith theoremOpen x = false -> theoremAnchored x = None.
Proof. intros H. unfold theoremAnchored. now rewrite H. Qed.

(** A whitespace-free token followed by white space or the end is what
    the group of the first pattern captures. *)
Lemma idToken_value tok after :
  tok <> [] ->
  Forall (fun c => isWhiteSpace c = false) tok ->
  spaceOrEnd after = true ->
  idToken (tok ++ after) = Some tok.
Proof.
  intros Hne Hall Hafter. induction tok as [|c tok IH]; [contradiction|].
  inversion Hall as [|c' tok' Hc Htok]; subst.
  cbn [app idToken]. rewrite Hc.
  destruct tok as [|d tok].
  - cbn [app]. rewrite Hafter.
    destruct after as [|w after]; [reflexivity|].
    cbn [spaceOrEnd] in Hafter. cbn [idToken]. now rewrite Hafter.
  - now rewrite IH.
Qed.

End AttributeFacts.

Import AttributeFacts.

(** A header that no pair of its own closes before the terminator is
    dropped with all its words: the pass gives a key segment with an
    empty body, the scan goes on after the terminator, and the texts of
    the segments are the text before the marker and those of the
    rest. *)
Theorem unclosed_header_words_are_dropped pre hdr rest :
  indexOf (pre ++ startTag) startTag 0 = length pre ->
  indexOf (hdr ++ endTag) (js "]]") 0 = length hdr + 11 ->
  parseKeySteps (pre ++ startTag ++ hdr ++ endTag ++ rest) =
  option_map
    (fun tail =>
       (if truthy pre then [Normal pre] else [])
         ++ KeyStep [] (idMatch (trim (hdr ++ js "[[/KEY_STEP")))
                    (theoremMatch (trim (hdr ++ js "[[/KEY_STEP")))
         :: tail)
    (parseKeySteps rest) /\
  option_map concatTexts
    (parseKeySteps (pre ++ startTag ++ hdr ++ endTag ++ rest)) =
  option_map (fun tail => pre ++ concatTexts tail) (parseKeySteps rest).
Proof.
  intros Hstart Hclose.
  pose proof (unclosed_first_terminator hdr Hclose) as Hend.
  assert (E : parseKeySteps (pre ++ startTag ++ hdr ++ endTag ++ rest) =
              option_map
                (fun tail =>
                   (if truthy pre then [Normal pre] else [])
                     ++ KeyStep [] (idMatch (trim (hdr ++ js "[[/KEY_STEP")))
                          (theoremMatch (trim (hdr ++ js "[[/KEY_STEP")))
                     :: tail)
                (parseKeySteps rest)).
  { unfold parseKeySteps at 1. cbn [loop].
    rewrite (iteration_tagged [] pre hdr rest Hstart Hend).
    rewrite (keySegment_unclosed hdr Hclose), loop_parse.
    - destruct (parseKeySteps rest) as [tail|]; [|reflexivity].
      cbn [option_map]. f_equal. unfold push.
      destruct (truthy pre); reflexivity.
    - rewrite !List.length_app. change (List.length endTag) with 13%nat.
      lia. }
  split; [exact E|]. rewrite E.
  destruct (parseKeySteps rest) as [tail|]; [|reflexivity].
  cbn [option_map]. f_equal. rewrite concatTexts_app.
  destruct pre as [|c pre]; cbn [truthy]; unfold concatTexts; cbn;
    now rewrite ?app_nil_r.
Qed.

Lemma unclosed_header_words_are_dropped_witness :
  option_map concatTexts
    (parseKeySteps
       (js "so " ++ startTag ++ js " id=5 by compactness " ++ endTag
           ++ js " hence")) =
  Some (js "so  hence").
Proof.
  rewrite (proj2 (unclosed_header_words_are_dropped (js "so ")
                    (js " id=5 by compactness ") (js " hence")
                    eq_refl eq_refl)).
  reflexivity.
Defined.

(** The id of a header is the whitespace-free token after the first
    [id=], when that token is not empty and white space or the end of
    the header follows it. *)
Theorem id_value_is_token_after_first_id before tok after :
  indexOf (before ++ js "id=") (js "id=") 0 = length before ->
  tok <> [] ->
  Forall (fun c => isWhiteSpace c = false) tok ->
  spaceOrEnd after = true ->
  idMatch (before ++ js "id=" ++ tok ++ after) = Some tok.
Proof.
  intros Hfirst Hne Hall Hafter. unfold idMatch.
  rewrite indexOf_0 in Hfirst.
  destruct (find (js "id=") (before ++ js "id=")) as [i|] eqn:E.
  - assert (i = List.length before) as -> by (unfold length in Hfirst; lia).
    rewrite (leftmost_skip _ _ _ _ idAnchored_prefix E), leftmost_eq.
    unfold idAnchored. rewrite startsWith_app.
    change (skipn 3 (js "id=" ++ tok ++ after)) with (tok ++ after).
    now rewrite idToken_value.
  - pose proof (length_nonneg before). lia.
Qed.

Lemma id_value_is_token_after_first_id_witness :
  idMatch (js "theorem=x id=" ++ js "7.2" ++ js " extra") = Some (js "7.2").
Proof.
  apply (id_value_is_token_after_first_id (js "theorem=x ") (js "7.2")
           (js " extra")); try reflexivity; [discriminate|].
  repeat constructor.
Defined.

(** A header without [id=] has no id, and a header without [theorem=]
    followed by a double quote has no theorem. *)
Theorem attributes_absent_without_key header :
  (indexOf header (js "id=") 0 = -1 -> idMatch header = None) /\
  (indexOf header theoremOpen 0 = -1 -> theoremMatch header = None).
Proof.
  rewrite !indexOf_0. split; intros H.
  - apply (leftmost_None _ (js "id=") _ idAnchored_prefix).
    destruct (find (js "id=") header) as [i|]; [|reflexivity].
    pose proof (Nat2Z.is_nonneg i). lia.
  - apply (leftmost_None _ theoremOpen _ theoremAnchored_prefix).
    destruct (find theoremOpen header) as [i|]; [|reflexivity].
    pose proof (Nat2Z.is_nonneg i). lia.
Qed.

Lemma attributes_absent_without_key_witness :
  idMatch (js "identity = 3 theorem=Riesz") = None /\
  theoremMatch (js "identity = 3 theorem=Riesz") = None.
Proof.
  split.
  - apply (proj1 (attributes_absent_without_key
                    (js "identity = 3 theorem=Riesz"))). reflexivity.
  - apply (proj2 (attributes_absent_without_key
                    (js "identity = 3 theorem=Riesz"))). reflexivity.
Defined.

(* ================================================================== *)
(** ** The components *)
(* ================================================================== *)

Module ComponentFacts.
Import JS Regex KeyStepRenderer React JSFacts LoopFacts.

Lemma positions_lower idx n z : In z (Component.positions idx n) -> idx <= z.
Proof.
  revert idx; induction n as [|n IH]; intros idx; simpl; [easy|].
  intros [<-|H]; [lia|]. apply IH in H. lia.
Qed.

Lemma positions_NoDup idx n : NoDup (Component.positions idx n).
Proof.
  revert idx; induction n as [|n IH]; intros idx; simpl; constructor.
  - intros H. apply positions_lower in H. lia.
  - apply IH.
Qed.

Lemma mapFrom_keys idx segments :
  map Component.keyOf (Component.mapFrom idx segments) =
  map Some (Component.positions idx (List.length segments)).
Proof.
  revert idx; induction segments as [|seg rest IH]; intros idx; simpl.
  - reflexivity.
  - rewrite IH. f_equal. unfold Component.renderSegment.
    now destruct (type seg).
Qed.

Lemma mapFrom_sources idx segments :
  map Component.sourceOf (Component.mapFrom idx segments) =
  map text segments.
Proof.
  revert idx; induction segments as [|seg rest IH]; intros idx; simpl.
  - reflexivity.
  - rewrite IH. f_equal. unfold Component.renderSegment.
    now destruct (type seg).
Qed.

Lemma map_Some_NoDup (l : list Z) : NoDup l -> NoDup (map Some l).
Proof.
  induction 1 as [|x l Hx _ IH]; simpl; constructor; [|exact IH].
  intros Hin. apply in_map_iff in Hin as (y & [= ->] & Hy). contradiction.
Qed.

(** The title of a segment with well-formed attributes. *)
Lemma title_shape seg :
  attributesWellFormed seg ->
  exists idPart theoremPart,
    Component.title seg = Component.label ++ idPart ++ theoremPart /\
    ((idPart = [] /\ id seg = None) \/
     (exists tok, id seg = Some tok /\ idPart = js " #" ++ tok /\
                  tok <> [] /\
                  Forall (fun c => isWhiteSpace c = false) tok)) /\
    ((theoremPart = [] /\ (theorem seg = None \/ theorem seg = Some [])) \/
     (exists name, theorem seg = Some name /\ theoremPart = js ": " ++ name /\
                   name <> [] /\ ~ In quote name)).
Proof.
  intros [Hid Hth]. destruct seg as [ty tx i th]. cbn [id theorem] in *.
  unfold Component.title, Component.present. cbn [id theorem].
  assert (Hi : i = None \/
               exists c t, i = Some (c :: t) /\
                           Forall (fun u => isWhiteSpace u = false) (c :: t)).
  { destruct i as [[|c t]|]; [| |now left].
    - destruct (Hid [] eq_refl) as [Hne _]. contradiction.
    - right. exists c, t. split; [reflexivity|]. now apply Hid. }
  assert (Ht : th = None \/ th = Some [] \/
               exists d name, th = Some (d :: name) /\ ~ In quote (d :: name)).
  { destruct th as [[|d name]|]; [now right; left | | now left].
    right; right. exists d, name. split; [reflexivity|]. now apply Hth. }
  destruct Hi as [->|(c & t & -> & Hall)];
    destruct Ht as [->|[->|(d & name & -> & Hq)]];
    cbn [truthy Component.interpolate].
  - exists [], []. rewrite !app_nil_r. repeat split; left; auto.
  - exists [], []. rewrite !app_nil_r. repeat split; left; auto.
  - exists [], (js ": " ++ d :: name). repeat split; [now left | right].
    exists (d :: name). repeat split; [discriminate | exact Hq].
  - exists (js " #" ++ c :: t), []. rewrite !app_nil_r.
    repeat split; [right | left; auto].
    exists (c :: t). repeat split; [discriminate | exact Hall].
  - exists (js " #" ++ c :: t), []. rewrite !app_nil_r.
    repeat split; [right | left; auto].
    exists (c :: t). repeat split; [discriminate | exact Hall].
  - exists (js " #" ++ c :: t), (js ": " ++ d :: name).
    repeat split; right.
    + exists (c :: t). repeat split; [discriminate | exact Hall].
    + exists (d :: name). repeat split; [discriminate | exact Hq].
Qed.

End ComponentFacts.

Import React ComponentFacts.

(** The component renders one element for each segment, in the order of
    the segments: the element of the segment at position [i] has the key
    [i], so that no two elements share a key, and its Markdown source is
    the text of the segment. *)
Theorem rendered_elements_follow_segments text :
  exists segments elements,
    parseKeySteps text = Some segments /\
    Component.KeyStepRenderer text = Some elements /\
    map Component.keyOf elements =
      map Some (Component.positions 0 (List.length segments)) /\
    NoDup (map Component.keyOf elements) /\
    map Component.sourceOf elements = map KeyStepRenderer.text segments.
Proof.
  destruct (loop_total (S (List.length text)) [] text) as [segments E];
    [lia|].
  exists segments, (Component.mapFrom 0 segments).
  split; [exact E|]. split.
  { unfold Component.KeyStepRenderer, parseKeySteps. now rewrite E. }
  split; [apply mapFrom_keys|]. split; [|apply mapFrom_sources].
  rewrite mapFrom_keys. apply map_Some_NoDup, positions_NoDup.
Qed.

(** The title of every key step rendered is the label, followed by
    [ #] and the id when there is an id, followed by [: ] and the name
    of the theorem when there is a theorem that is not empty; the id
    shown is never empty and holds no white space, and an empty theorem
    is treated as an absent one. *)
Theorem titles_show_present_attributes text :
  exists segments,
    parseKeySteps text = Some segments /\
    Forall
      (fun seg =>
         exists idPart theoremPart,
           Component.title seg = Component.label ++ idPart ++ theoremPart /\
           ((idPart = [] /\ id seg = None) \/
            (exists tok, id seg = Some tok /\ idPart = js " #" ++ tok /\
                         tok <> [] /\
                         Forall (fun c => isWhiteSpace c = false) tok)) /\
           ((theoremPart = [] /\
             (theorem seg = None \/ theorem seg = Some [])) \/
            (exists name, theorem seg = Some name /\
                          theoremPart = js ": " ++ name /\
                          name <> [] /\ ~ In quote name)))
      segments.
Proof.
  destruct (parse_Forall attributesWellFormed iteration_attributes text)
    as (segments & E & H).
  exists segments. split; [exact E|].
  apply (Forall_impl _ title_shape H).
Qed.

Module TrimFacts.
Import JS.

Lemma trimStart_split s :
  exists ws, s = ws ++ trimStart s /\ forallb isWhiteSpace ws = true.
Proof.
  induction s as [|c s (ws & IH & Hws)]; simpl.
  - now exists [].
  - destruct (isWhiteSpace c) eqn:E.
    + exists (c :: ws). simpl. rewrite E, Hws. split; [now f_equal | easy].
    + now exists [].
Qed.

Lemma trimStart_head s c t :
  trimStart s = c :: t -> isWhiteSpace c = false.
Proof.
  induction s as [|d s IH]; simpl; [discriminate|].
  destruct (isWhiteSpace d) eqn:E; [exact IH|].
  now intros [= <- _].
Qed.

Lemma trimStart_blank s :
  forallb isWhiteSpace s = true -> trimStart s = [].
Proof.
  induction s as [|c s IH]; simpl; [reflexivity|].
  destruct (isWhiteSpace c); [exact IH | discriminate].
Qed.

Lemma trimStart_nonblank s :
  forallb isWhiteSpace s = false -> trimStart s <> [].
Proof.
  induction s as [|c s IH]; simpl; [discriminate|].
  destruct (isWhiteSpace c); [exact IH | discriminate].
Qed.

Lemma forallb_rev (f : code_unit -> bool) s :
  forallb f (rev s) = forallb f s.
Proof.
  induction s as [|c s IH]; simpl; [reflexivity|].
  rewrite forallb_app, IH. simpl. rewrite andb_true_r. apply andb_comm.
Qed.

Lemma trimEnd_split s :
  exists ws, s = trimEnd s ++ ws /\ forallb isWhiteSpace ws = true.
Proof.
  unfold trimEnd. destruct (trimStart_split (rev s)) as (ws & H & Hws).
  exists (rev ws). rewrite forallb_rev. split; [|exact Hws].
  rewrite <- rev_app_distr, <- H. symmetry. apply rev_involutive.
Qed.

Lemma trimEnd_last s :
  trimEnd s = [] \/
  exists t c, trimEnd s = t ++ [c] /\ isWhiteSpace c = false.
Proof.
  unfold trimEnd. destruct (trimStart (rev s)) as [|c t] eqn:E;
    [now left | right].
  exists (rev t), c. split; [reflexivity|]. exact (trimStart_head _ _ _ E).
Qed.

Lemma trimEnd_fixed t c :
  isWhiteSpace c = false -> trimEnd (t ++ [c]) = t ++ [c].
Proof.
  intros H. unfold trimEnd. rewrite rev_app_distr. simpl. rewrite H.
  simpl. now rewrite rev_involutive.
Qed.

Lemma trimEnd_nonblank s :
  forallb isWhiteSpace s = false -> trimEnd s <> [].
Proof.
  intros H E. unfold trimEnd in E.
  apply (f_equal (@rev code_unit)) in E. rewrite rev_involutive in E.
  simpl in E. apply (trimStart_nonblank (rev s)); [|exact E].
  now rewrite forallb_rev.
Qed.

(** What [trim] leaves of a text that is not blank: the text without
    white space before and after, with no white space at its ends. *)
Lemma trim_nonblank s :
  forallb isWhiteSpace s = false ->
  exists ws1 ws2,
    s = ws1 ++ trim s ++ ws2 /\
    forallb isWhiteSpace ws1 = true /\
    forallb isWhiteSpace ws2 = true /\
    (exists c t, trim s = c :: t /\ isWhiteSpace c = false) /\
    (exists t c, trim s = t ++ [c] /\ isWhiteSpace c = false).
Proof.
  intros Hs. unfold trim.
  destruct (trimStart_split s) as (ws1 & H1 & Hws1).
  destruct (trimEnd_split (trimStart s)) as (ws2 & H2 & Hws2).
  assert (Hmid : forallb isWhiteSpace (trimStart s) = false).
  { rewrite H1, forallb_app, Hws1 in Hs. exact Hs. }
  pose proof (trimEnd_nonblank _ Hmid) as Hne.
  exists ws1, ws2. split; [now rewrite <- H2|].
  split; [exact Hws1|]. split; [exact Hws2|]. split.
  - destruct (trimEnd (trimStart s)) as [|c t] eqn:E; [contradiction|].
    exists c, t. split; [reflexivity|].
    destruct (trimStart s) as [|d u] eqn:Eu; [discriminate H2|].
    injection H2 as <- _. exact (trimStart_head _ _ _ Eu).
  - destruct (trimEnd_last (trimStart s)) as [E|H]; [contradiction | exact H].
Qed.

Lemma trim_blank s : forallb isWhiteSpace s = true -> trim s = [].
Proof. intros H. unfold trim. now rewrite (trimStart_blank s H). Qed.

(** A text without white space at its ends is left as it is. *)
Lemma trim_fixed s :
  (exists c t, s = c :: t /\ isWhiteSpace c = false) ->
  (exists t c, s = t ++ [c] /\ isWhiteSpace c = false) ->
  trim s = s.
Proof.
  intros (c & t & -> & Hc) (u & d & E & Hd). unfold trim.
  simpl trimStart. rewrite Hc, E. now apply trimEnd_fixed.
Qed.

Lemma blank_or_not s :
  forallb isWhiteSpace s = true \/ forallb isWhiteSpace s = false.
Proof. destruct (forallb isWhiteSpace s); auto. Qed.

(** The content begins and ends with a code unit that is not white
    space. *)
Lemma content_ends value :
  (exists c t, LatexPreview.content value = c :: t /\
               isWhiteSpace c = false) /\
  (exists t c, LatexPreview.content value = t ++ [c] /\
               isWhiteSpace c = false).
Proof.
  unfold LatexPreview.content.
  destruct (blank_or_not value) as [H|H].
  - rewrite (trim_blank value H). cbn [truthy]. split.
    + eexists _, _. split; reflexivity.
    + exists (removelast LatexPreview.placeholder), 12290%N.
      split; reflexivity.
  - destruct (trim_nonblank value H) as (_ & _ & _ & _ & _ & Hc & Hd).
    destruct Hc as (c & t & E & Hc). rewrite E. cbn [truthy].
    rewrite <- E. split; [exists c, t; now split | exact Hd].
Qed.

End TrimFacts.

Import TrimFacts.

(** The preview never shows an empty text, nor one with white space at
    its ends: the content begins and ends with a code unit that is not
    white space, whatever the value. *)
Theorem preview_content_is_trimmed value :
  (exists c t, LatexPreview.content value = c :: t /\
               isWhiteSpace c = false) /\
  (exists t c, LatexPreview.content value = t ++ [c] /\
               isWhiteSpace c = false).
Proof. apply content_ends. Qed.

(** A value that holds nothing but white space (the empty value
    included) is previewed as the placeholder. *)
Theorem blank_value_shows_placeholder value :
  forallb isWhiteSpace value = true ->
  LatexPreview.content value = LatexPreview.placeholder.
Proof.
  intros H. unfold LatexPreview.content. now rewrite (trim_blank value H).
Qed.

Lemma blank_value_shows_placeholder_witness :
  LatexPreview.content (js "  " ++ [160; 10; 12288]%N) =
  LatexPreview.placeholder.
Proof.
  apply (blank_value_shows_placeholder (js "  " ++ [160; 10; 12288]%N)).
  reflexivity.
Defined.

(** A value that is not blank is previewed without the white space
    around it and otherwise unchanged: the value is white space, the
    content, white space; the content is what [trim] gives, and it
    begins and ends with a code unit that is not white space, so all of
    the white space before and after it is taken away and nothing
    else. *)
Theorem nonblank_value_shows_trimmed value :
  forallb isWhiteSpace value = false ->
  exists ws1 ws2,
    value = ws1 ++ LatexPreview.content value ++ ws2 /\
    forallb isWhiteSpace ws1 = true /\
    forallb isWhiteSpace ws2 = true /\
    LatexPreview.content value = trim value /\
    (exists c t, LatexPreview.content value = c :: t /\
                 isWhiteSpace c = false) /\
    (exists t c, LatexPreview.content value = t ++ [c] /\
                 isWhiteSpace c = false).
Proof.
  intros H. unfold LatexPreview.content.
  destruct (trim_nonblank value H) as (ws1 & ws2 & E & H1 & H2 & Hc & Hd).
  exists ws1, ws2. destruct Hc as (c & t & Et & Hc).
  rewrite Et. cbn [truthy]. rewrite <- Et.
  repeat split; try assumption. exists c, t. now split.
Qed.

Lemma nonblank_value_shows_trimmed_witness :
  LatexPreview.content (js " $x^2$  and more ") = js "$x^2$  and more" /\
  exists ws1 ws2,
    js " $x^2$  and more " =
      ws1 ++ LatexPreview.content (js " $x^2$  and more ") ++ ws2 /\
    forallb isWhiteSpace ws1 = true /\
    forallb isWhiteSpace ws2 = true /\
    LatexPreview.content (js " $x^2$  and more ") =
      trim (js " $x^2$  and more ") /\
    (exists c t, LatexPreview.content (js " $x^2$  and more ") = c :: t /\
                 isWhiteSpace c = false) /\
    (exists t c, LatexPreview.content (js " $x^2$  and more ") = t ++ [c] /\
                 isWhiteSpace c = false).
Proof.
  split; [reflexivity|].
  apply (nonblank_value_shows_trimmed (js " $x^2$  and more ")).
  reflexivity.
Defined.

(** Previewing what the preview shows changes nothing. *)
Theorem preview_content_idempotent value :
  LatexPreview.content (LatexPreview.content value) =
  LatexPreview.content value.
Proof.
  destruct (content_ends value) as [Hc Hd].
  unfold LatexPreview.content at 1.
  rewrite (trim_fixed _ Hc Hd).
  destruct Hc as (c & t & -> & _). reflexivity.
Qed.

(** A pass that goes on with the loop has looked at nothing beyond the
    terminator it found: with any other text after that terminator the
    pass pushes the same segments, and the text after the terminator is
    parsed on its own.  So the segments of a completed key step do not
    change when more text arrives after it. *)
Theorem continuing_pass_ignores_what_follows text n rest :
  iteration [] text = Continue n rest ->
  exists used,
    text = used ++ rest /\
    (forall segments rest',
        iteration segments (used ++ rest') = Continue (segments ++ n) rest') /\
    (forall rest',
        parseKeySteps (used ++ rest') =
        option_map (app n) (parseKeySteps rest')).
Proof.
  intros E.
  destruct (remaining_shape text)
    as [Hplain | [(pre & m & -> & Hs & He) | (pre & mid & rest0 & -> & Hs & He)]].
  - unfold iteration in E. rewrite Hplain in E. discriminate E.
  - rewrite (iteration_unterminated [] pre m Hs He) in E. discriminate E.
  - rewrite (iteration_tagged [] pre mid rest0 Hs He) in E.
    injection E as <- <-.
    exists (pre ++ startTag ++ mid ++ endTag).
    assert (Hpass : forall segments rest',
               iteration segments ((pre ++ startTag ++ mid ++ endTag) ++ rest') =
               Continue
                 (segments ++
                    push (if truthy pre then push [] (Normal pre) else [])
                         (keySegment ((startTag ++ mid) ++ endTag)))
                 rest').
    { intros segments rest'. rewrite <- !app_assoc.
      rewrite (iteration_tagged segments pre mid rest' Hs He).
      unfold push. destruct (truthy pre); now rewrite <- ?app_assoc. }
    split; [now rewrite <- !app_assoc|]. split; [exact Hpass|].
    intros rest'. unfold parseKeySteps at 1. cbn [loop].
    rewrite (Hpass [] rest'), loop_parse; [reflexivity|].
    rewrite !List.length_app. change (List.length endTag) with 13%nat. lia.
Qed.

Lemma continuing_pass_ignores_what_follows_witness :
  exists used,
    js "a[[KEY_STEP id=1]]b[[/KEY_STEP]]c" = used ++ js "c" /\
    (forall segments rest',
        iteration segments (used ++ rest') =
        Continue (segments ++ [Normal (js "a");
                               KeyStep (js "b") (Some (js "1")) None])
                 rest') /\
    (forall rest',
        parseKeySteps (used ++ rest') =
        option_map (app [Normal (js "a");
                         KeyStep (js "b") (Some (js "1")) None])
                   (parseKeySteps rest')).
Proof.
  apply (continuing_pass_ignores_what_follows
           (js "a[[KEY_STEP id=1]]b[[/KEY_STEP]]c")).
  reflexivity.
Defined.

(** A text without start marker is rendered as one Markdown element
    with key 0 that holds the whole text, and an empty text as no
    element at all. *)
Theorem plain_text_renders_as_one_element text :
  indexOf text startTag 0 = -1 ->
  Component.KeyStepRenderer text =
  Some (if truthy text then [ReactMarkdown (Some 0) text] else []).
Proof.
  intros H. unfold Component.KeyStepRenderer, parseKeySteps.
  cbn [loop]. unfold iteration. rewrite H.
  change (-1 =? -1) with true. cbv iota.
  now destruct text.
Qed.

Lemma plain_text_renders_as_one_element_witness :
  Component.KeyStepRenderer (js "By the [[ Riesz lemma, $x = 0$.") =
  Some [ReactMarkdown (Some 0) (js "By the [[ Riesz lemma, $x = 0$.")].
Proof.
  apply (plain_text_renders_as_one_element
           (js "By the [[ Riesz lemma, $x = 0$.")).
  reflexivity.
Defined.

Module TrimAttributeFacts.
Import JS Regex JSFacts RegexFacts TrimFacts.

Lemma eqb_space_false a w :
  isWhiteSpace a = false -> isWhiteSpace w = true -> (a =? w)%N = false.
Proof.
  intros Ha Hw. destruct (N.eqb_spec a w) as [->|]; [|reflexivity].
  rewrite Ha in Hw. discriminate.
Qed.

(** White space after a text does not complete a prefix that holds no
    white space. *)
Lemma startsWith_ws needle x ws :
  forallb (fun c => negb (isWhiteSpace c)) needle = true ->
  forallb isWhiteSpace ws = true ->
  startsWith needle (x ++ ws) = startsWith needle x.
Proof.
  intros Hn Hws. revert x; induction needle as [|a n IH]; intros x.
  - reflexivity.
  - simpl in Hn. apply andb_true_iff in Hn as [Ha Hn].
    apply negb_true_iff in Ha. destruct x as [|c x].
    + destruct ws as [|w ws]; [reflexivity|]. simpl in Hws.
      apply andb_true_iff in Hws as [Hw _].
      cbn [app startsWith]. now rewrite (eqb_space_false a w Ha Hw).
    + cbn [app startsWith]. now rewrite IH.
Qed.

Lemma idToken_ws y ws :
  forallb isWhiteSpace ws = true -> idToken (y ++ ws) = idToken y.
Proof.
  intros Hws. induction y as [|c y IH].
  - destruct ws as [|w ws]; [reflexivity|]. simpl in *.
    apply andb_true_iff in Hws as [-> _]. reflexivity.
  - cbn [app idToken]. rewrite IH.
    destruct (isWhiteSpace c); [reflexivity|].
    destruct (idToken y); [reflexivity|].
    destruct y as [|d y]; [|reflexivity].
    destruct ws as [|w ws]; [reflexivity|]. simpl in *.
    apply andb_true_iff in Hws as [-> _]. reflexivity.
Qed.

Lemma quoted_ws y ws :
  forallb isWhiteSpace ws = true -> quoted (y ++ ws) = quoted y.
Proof.
  intros Hws. induction y as [|c y IH].
  - simpl. induction ws as [|w ws IHw]; [reflexivity|]. simpl in *.
    apply andb_true_iff in Hws as [Hw Hws].
    destruct (N.eqb_spec w quote) as [->|]; [discriminate Hw|].
    now rewrite IHw.
  - cbn [app quoted]. now rewrite IH.
Qed.

Lemma skipn_app_long (k : nat) (x ws : jsstring) :
  (k <= List.length x)%nat -> skipn k (x ++ ws) = skipn k x ++ ws.
Proof.
  intros H. rewrite skipn_app.
  replace (k - List.length x)%nat with O by lia. reflexivity.
Qed.

Lemma idAnchored_ws x ws :
  forallb isWhiteSpace ws = true -> idAnchored (x ++ ws) = idAnchored x.
Proof.
  intros Hws. unfold idAnchored.
  rewrite (startsWith_ws (js "id=") x ws eq_refl Hws).
  destruct (startsWith (js "id=") x) eqn:E; [|reflexivity].
  apply startsWith_length in E.
  rewrite skipn_app_long by exact E. now apply idToken_ws.
Qed.

Lemma theoremAnchored_ws x ws :
  forallb isWhiteSpace ws = true ->
  theoremAnchored (x ++ ws) = theoremAnchored x.
Proof.
  intros Hws. unfold theoremAnchored.
  rewrite (startsWith_ws theoremOpen x ws eq_refl Hws).
  destruct (startsWith theoremOpen x) eqn:E; [|reflexivity].
  apply startsWith_length in E.
  rewrite skipn_app_long by exact E. now apply quoted_ws.
Qed.

Lemma leftmost_blank {A : Type} (f : jsstring -> option A) ws :
  (forall x ws, forallb isWhiteSpace ws = true -> f (x ++ ws) = f x) ->
  forallb isWhiteSpace ws = true ->
  leftmost f ws = leftmost f [].
Proof.
  intros Hf. induction ws as [|w ws IH]; [reflexivity|].
  intros Hws. rewrite leftmost_eq.
  rewrite (Hf [] (w :: ws) Hws : f (w :: ws) = f []).
  simpl in Hws. apply andb_true_iff in Hws as [_ Hws].
  rewrite (IH Hws). simpl. now destruct (f []).
Qed.

Lemma leftmost_ws_end {A : Type} (f : jsstring -> option A) s ws :
  (forall x ws, forallb isWhiteSpace ws = true -> f (x ++ ws) = f x) ->
  forallb isWhiteSpace ws = true ->
  leftmost f (s ++ ws) = leftmost f s.
Proof.
  intros Hf Hws. induction s as [|c s IH].
  - now apply leftmost_blank.
  - rewrite <- app_comm_cons, !(leftmost_eq f (c :: _)).
    rewrite (Hf (c :: s) ws Hws : f (c :: s ++ ws) = f (c :: s)).
    now rewrite IH.
Qed.

Lemma leftmost_ws_start {A : Type} (f : jsstring -> option A) s :
  (forall w x, isWhiteSpace w = true -> f (w :: x) = None) ->
  leftmost f (trimStart s) = leftmost f s.
Proof.
  intros Hf. induction s as [|c s IH]; [reflexivity|].
  simpl trimStart. destruct (isWhiteSpace c) eqn:E; [|reflexivity].
  rewrite IH, (leftmost_eq f (c :: s)). now rewrite (Hf c s E).
Qed.

Lemma leftmost_trim {A : Type} (f : jsstring -> option A) s :
  (forall x ws, forallb isWhiteSpace ws = true -> f (x ++ ws) = f x) ->
  (forall w x, isWhiteSpace w = true -> f (w :: x) = None) ->
  leftmost f (trim s) = leftmost f s.
Proof.
  intros Hend Hstart. unfold trim.
  destruct (trimEnd_split (trimStart s)) as (ws & E & Hws).
  rewrite <- (leftmost_ws_start f s Hstart).
  rewrite E at 2. now rewrite (leftmost_ws_end f _ ws Hend Hws).
Qed.

Lemma idAnchored_space w x :
  isWhiteSpace w = true -> idAnchored (w :: x) = None.
Proof.
  intros Hw. unfold idAnchored.
  change (startsWith (js "id=") (w :: x))
    with ((105 =? w)%N && startsWith (js "d=") x).
  now rewrite (eqb_space_false 105%N w eq_refl Hw).
Qed.

Lemma theoremAnchored_space w x :
  isWhiteSpace w = true -> theoremAnchored (w :: x) = None.
Proof.
  intros Hw. unfold theoremAnchored.
  change (startsWith theoremOpen (w :: x))
    with ((116 =? w)%N && startsWith (js "heorem=" ++ [quote]) x).
  now rewrite (eqb_space_false 116%N w eq_refl Hw).
Qed.

End TrimAttributeFacts.

Import TrimAttributeFacts.

(** The white space that [trim] takes away around the header never
    matters for the attributes: the id and the theorem found in the
    trimmed header are those found in the header as it stands between
    the start tag and its closing pair. *)
Theorem trimming_keeps_attributes header :
  idMatch (trim header) = idMatch header /\
  theoremMatch (trim header) = theoremMatch header.
Proof.
  split.
  - apply leftmost_trim; [apply idAnchored_ws | apply idAnchored_space].
  - apply leftmost_trim;
      [apply theoremAnchored_ws | apply theoremAnchored_space].
Qed.

(** A key step written as the markup prescribes is read back as it was
    written: from [[[KEY_STEP id=<tok> theorem=<Q><name><Q>]]], the body
    and the terminator, the parser returns the one key segment with
    that id, that theorem and that body, provided the token is not
    empty and holds no white space, the name holds no double quote, the
    header holds no closing pair and no earlier [theorem=<Q>], and the
    body no terminator. *)
Theorem written_key_step_is_read_back tok name body :
  tok <> [] ->
  Forall (fun c => isWhiteSpace c = false) tok ->
  ~ In quote name ->
  indexOf ((js " id=" ++ tok ++ js " ") ++ theoremOpen) theoremOpen 0 =
    length (js " id=" ++ tok ++ js " ") ->
  indexOf ((js " id=" ++ tok ++ js " " ++ theoremOpen ++ name ++ [quote])
             ++ js "]]") (js "]]") 0 =
    length (js " id=" ++ tok ++ js " " ++ theoremOpen ++ name ++ [quote]) ->
  indexOf ((startTag ++ (js " id=" ++ tok ++ js " " ++ theoremOpen ++ name
                            ++ [quote]) ++ js "]]" ++ body) ++ endTag)
          endTag 0 =
    length (startTag ++ (js " id=" ++ tok ++ js " " ++ theoremOpen ++ name
                            ++ [quote]) ++ js "]]" ++ body) ->
  parseKeySteps
    (startTag ++ (js " id=" ++ tok ++ js " " ++ theoremOpen ++ name ++ [quote])
              ++ js "]]" ++ body ++ endTag) =
  Some [KeyStep body (Some tok) (Some name)].
Proof.
  intros Hne Hall Hq Hthm Hclose Hend.
  set (hdr := js " id=" ++ tok ++ js " " ++ theoremOpen ++ name ++ [quote])
    in *.
  assert (Hid : idMatch (trim hdr) = Some tok).
  { unfold idMatch.
    rewrite (leftmost_trim _ _ idAnchored_ws idAnchored_space).
    change hdr with (js " " ++ js "id=" ++ tok
                        ++ (js " " ++ theoremOpen ++ name ++ [quote])).
    rewrite (leftmost_skip idAnchored (js "id=") (js " ") _
               idAnchored_prefix eq_refl).
    rewrite leftmost_eq. unfold idAnchored. rewrite startsWith_app.
    change (skipn 3 (js "id=" ++ tok
                        ++ js " " ++ theoremOpen ++ name ++ [quote]))
      with (tok ++ js " " ++ theoremOpen ++ name ++ [quote]).
    now rewrite idToken_value. }
  assert (Hth : theoremMatch (trim hdr) = Some name).
  { unfold theoremMatch.
    rewrite (leftmost_trim _ _ theoremAnchored_ws theoremAnchored_space).
    replace hdr with ((js " id=" ++ tok ++ js " ") ++ theoremOpen ++ name
                        ++ quote :: [])
      by (unfold hdr; now rewrite <- !app_assoc).
    now apply theoremMatch_value. }
  unfold parseKeySteps. cbn [loop].
  pose proof (iteration_keyStep [] [] hdr body [] eq_refl Hclose Hend) as E.
  rewrite app_nil_l, app_nil_r in E. cbn [truthy] in E.
  rewrite E, Hid, Hth. reflexivity.
Qed.

Lemma written_key_step_is_read_back_witness :
  parseKeySteps
    (startTag ++ (js " id=" ++ js "3.1" ++ js " " ++ theoremOpen
                     ++ js "Open mapping theorem" ++ [quote])
              ++ js "]]" ++ js "Since $T$ is onto, ..." ++ endTag) =
  Some [KeyStep (js "Since $T$ is onto, ...") (Some (js "3.1"))
                (Some (js "Open mapping theorem"))].
Proof.
  apply (written_key_step_is_read_back (js "3.1")
           (js "Open mapping theorem") (js "Since $T$ is onto, ..."));
    try reflexivity.
  - discriminate.
  - repeat constructor.
  - intros H. repeat (destruct H as [H|H]; [discriminate H|]). exact H.
Defined.
